(** * Air Guitar Pro: the strum detector, the note judge and the fret store

    A shallow embedding of the matching engine of [PCPlayer]
    (the [gameLoop] callback, [spawnNote], the WebSocket [onmessage] handler
    and [handleExit]) together with the properties of its specification.

    The socket handler is modelled twice: on messages that have the types
    the phone gives them (integers for strings and frets), which is what a
    session of the engine carries, and on whatever value [JSON.parse]
    returns, with the conversions and the exceptions of JavaScript.
    [ws_onmessage_typed] relates the two.

    Numbers.  Note positions, canvas dimensions, counters and [Date.now()]
    timestamps are integers in the program and are modelled by [Z].  Hand
    landmarks and everything computed from them are JavaScript doubles; they
    are idealised here as rationals ([Q]), so rounding is not modelled. *)

From Stdlib Require Import ZArith QArith Qabs Qround Bool List String Lia Lqa Sorted.
From stdpp Require Import list.
Import ListNotations.

Local Open Scope string_scope.
Local Open Scope list_scope.
Local Open Scope Z_scope.

(** ** Comparisons on rationals, as booleans *)

Definition Qltb (a b : Q) : bool := negb (Qle_bool b a).
Definition Qleb (a b : Q) : bool := Qle_bool a b.

(** ** Data model *)

(** [interface Note] *)
Record Note := mkNote {
  note_id : Z;
  note_x : Z;
  chordName : string;
  hit : bool;
  missed : bool
}.

(** The score counters held in [scoreRef], [comboRef], [perfectCountRef],
    [greatCountRef] and [missCountRef]. *)
Record Score := mkScore {
  scoreRef : Z;
  comboRef : Z;
  perfectCountRef : Z;
  greatCountRef : Z;
  missCountRef : Z
}.

Inductive StrumDir := up | down.

(** Calls that leave the engine: React state setters and the audio engine. *)
Inductive Effect :=
| setScoreDisplay (v : Z)
| setComboDisplay (v : Z)
| setLastRating (text : string)
| playStrum (frets : list (option Z)) (dir : StrumDir)
| playMuted.

(** One detected hand: the (x, y) source-frame coordinates of its keypoints
    ([landmarks[i][0]], [landmarks[i][1]]); handpose returns 21 of them. *)
Record Hand := mkHand { landmarks : list (Q * Q) }.

Definition lm0 (h : Hand) (i : nat) : Q := fst (nth i (landmarks h) (0%Q, 0%Q)).
Definition lm1 (h : Hand) (i : nat) : Q := snd (nth i (landmarks h) (0%Q, 0%Q)).

(** Everything one invocation of [gameLoop] reads from its environment. *)
Record Frame := mkFrame {
  dims_w : Z;                (* dimsRef.current.w *)
  dims_h : Z;                (* dimsRef.current.h *)
  videoWidth : Z;
  videoHeight : Z;
  spawnNow : Z;              (* Date.now() inside spawnNote *)
  randomIndex : nat;         (* Math.floor(Math.random() * chords.length) *)
  predictions : list Hand;   (* model.estimateHands(video) *)
  now : Z                    (* Date.now() after estimateHands *)
}.

(** The refs of the component that the engine reads and writes. *)
Record Engine := mkEngine {
  score : Score;
  notesRef : list Note;
  nextNoteId : Z;
  lastNoteSpawnTime : Z;
  isAudioStartedRef : bool;
  lastYRef : option Q;
  isStrummingRef : bool;
  lastStrumTimeRef : Z;
  fretStatesRef : list (option Z);
  currentChordRef : string;
  gameStartTimeRef : option Z
}.

(** ** Constants *)

Definition NOTE_SPEED : Z := 16.
Definition HIT_WINDOW : Z := 120.
Definition STRUM_VELOCITY_THRESHOLD : Q := 18.
Definition HIT_ZONE_X (CANVAS_W : Z) : Z := CANVAS_W - 250.

Definition STRUM_ZONE_x (CANVAS_W : Z) : Q := inject_Z CANVAS_W - 650.
Definition STRUM_ZONE_y (CANVAS_H : Z) : Q := inject_Z CANVAS_H * 0.65.
Definition STRUM_ZONE_w : Q := 600.
Definition STRUM_ZONE_h (CANVAS_H : Z) : Q := inject_Z CANVAS_H * 0.3.
Definition STRUM_MID_Y (CANVAS_H : Z) : Q :=
  STRUM_ZONE_y CANVAS_H + STRUM_ZONE_h CANVAS_H / 2.

Definition chords : list string :=
  ["C"; "G"; "D"; "Em"; "Am"; "F"; "Dm"; "A"; "E"].

(** ** The note scheduler: [spawnNote] *)

Definition spawnNote (f : Frame) (s : Engine) : Engine :=
  if 1100 <? spawnNow f - lastNoteSpawnTime s then
    mkEngine (score s)
      (notesRef s ++
         [mkNote (nextNoteId s) (-100) (nth (randomIndex f) chords "") false false])
      (nextNoteId s + 1) (spawnNow f) (isAudioStartedRef s)
      (lastYRef s) (isStrummingRef s) (lastStrumTimeRef s)
      (fretStatesRef s) (currentChordRef s) (gameStartTimeRef s)
  else s.

(** ** The judge: the body of the loop over [notesRef.current] *)

Definition isPending (n : Note) : bool := negb (hit n) && negb (missed n).

(** [dist < HIT_WINDOW / 3.5] *)
Definition isPerfectDist (dist : Z) : bool :=
  Qltb (inject_Z dist) (inject_Z HIT_WINDOW / 3.5).

Section Judge.
(** What the loop reads besides the note itself. *)
Variable didStrum : bool.
Variable strumDir : StrumDir.
Variable frets : list (option Z).
Variable HZ : Z.                (* HIT_ZONE_X *)

(** The strum branch, on a note already advanced. *)
Definition strumNote (n : Note) (sc : Score) : Note * Score * list Effect :=
  if didStrum then
    let dist := Z.abs (note_x n - HZ) in
    if dist <? HIT_WINDOW then
      let isPerfect := isPerfectDist dist in
      let sc' :=
        mkScore (scoreRef sc + (if isPerfect then 1000 else 500))
                (comboRef sc + 1)
                (if isPerfect then perfectCountRef sc + 1 else perfectCountRef sc)
                (if isPerfect then greatCountRef sc else greatCountRef sc + 1)
                (missCountRef sc) in
      (mkNote (note_id n) (note_x n) (chordName n) true (missed n),
       sc',
       [setScoreDisplay (scoreRef sc'); setComboDisplay (comboRef sc');
        setLastRating (if isPerfect then "PERFECT" else "GREAT");
        playStrum frets strumDir])
    else (n, sc, [])
  else (n, sc, []).

(** The miss branch. *)
Definition missNote (n : Note) (sc : Score) : Note * Score * list Effect :=
  if HZ + HIT_WINDOW <? note_x n then
    (mkNote (note_id n) (note_x n) (chordName n) (hit n) true,
     mkScore (scoreRef sc) 0 (perfectCountRef sc) (greatCountRef sc)
             (missCountRef sc + 1),
     [setComboDisplay 0; setLastRating "MISS"; playMuted])
  else (n, sc, []).

(** One iteration of the loop over the notes. *)
Definition judgeNote (n : Note) (sc : Score) : Note * Score * list Effect :=
  if isPending n then
    let n1 := mkNote (note_id n) (note_x n + NOTE_SPEED) (chordName n)
                     (hit n) (missed n) in
    let '(n2, sc2, ev2) := strumNote n1 sc in
    let '(n3, sc3, ev3) := missNote n2 sc2 in
    (n3, sc3, ev2 ++ ev3)
  else (n, sc, []).

(** [for (let i = notes.length - 1; i >= 0; i--)]: the last note is judged
    first, and every note is updated in place. *)
Fixpoint judgeNotes (notes : list Note) (sc : Score)
  : list Note * Score * list Effect :=
  match notes with
  | [] => ([], sc, [])
  | n :: rest =>
      let '(rest', sc1, ev1) := judgeNotes rest sc in
      let '(n', sc2, ev2) := judgeNote n sc1 in
      (n' :: rest', sc2, ev1 ++ ev2)
  end.
End Judge.

(** ** The position extractor (the hand-selection block of [gameLoop]) *)

Definition hScale (f : Frame) : Q := inject_Z (dims_w f) / inject_Z (videoWidth f).
Definition vScale (f : Frame) : Q := inject_Z (dims_h f) / inject_Z (videoHeight f).

(** [wristY > CANVAS_H * 0.45] *)
Definition passesGate (f : Frame) (p : Hand) : bool :=
  Qltb (inject_Z (dims_h f) * 0.45) (lm1 p 0 * vScale f).

Definition validHands (f : Frame) : list Hand :=
  List.filter (passesGate f) (predictions f).

(** The callback of [validHands.reduce]. *)
Definition pickHand (prev curr : Hand) : Hand :=
  if Qltb (lm0 prev 0) (lm0 curr 0) then prev else curr.

(** [Array.prototype.reduce] without an initial value; the caller checks
    that the array is not empty. *)
Definition reduceHands (l : list Hand) : option Hand :=
  match l with
  | [] => None
  | h :: t => Some (fold_left pickHand t h)
  end.

Definition avgTipY (f : Frame) (hand : Hand) : Q :=
  (lm1 hand 8 + lm1 hand 12 + lm1 hand 16) / 3 * vScale f.

Definition displayHandX (f : Frame) (hand : Hand) : Q :=
  inject_Z (dims_w f) - lm0 hand 0 * hScale f.

(** The hand [gameLoop] works with on this frame, if any. *)
Definition selectedHand (f : Frame) : option Hand := reduceHands (validHands f).

(** The position handed to the detector: [(displayHandX, avgTipY)]. *)
Definition extractPosition (f : Frame) : option (Q * Q) :=
  match selectedHand f with
  | Some hand => Some (displayHandX f hand, avgTipY f hand)
  | None => None
  end.

(** ** The strum detector (the zone block of [gameLoop]) *)

Definition inStrumZone (f : Frame) (x y : Q) : bool :=
  Qltb (STRUM_ZONE_x (dims_w f)) x
  && Qltb x (STRUM_ZONE_x (dims_w f) + STRUM_ZONE_w)
  && Qltb (STRUM_ZONE_y (dims_h f)) y
  && Qltb y (STRUM_ZONE_y (dims_h f) + STRUM_ZONE_h (dims_h f)).

Definition crossed (mid lastY y : Q) : bool :=
  (Qltb lastY mid && Qleb mid y) || (Qltb mid lastY && Qleb y mid).

Definition setDetector (s : Engine) (lastY : option Q) (isStrumming : bool)
    (lastStrumTime : Z) : Engine :=
  mkEngine (score s) (notesRef s) (nextNoteId s) (lastNoteSpawnTime s)
    (isAudioStartedRef s) lastY isStrumming lastStrumTime
    (fretStatesRef s) (currentChordRef s) (gameStartTimeRef s).

(** The three conditions under which a frame with a current and a previous
    in-zone sample fires. *)
Definition strumFires (f : Frame) (s : Engine) (lastY y : Q) : bool :=
  crossed (STRUM_MID_Y (dims_h f)) lastY y
  && Qltb STRUM_VELOCITY_THRESHOLD (Qabs (y - lastY))
  && (150 <? now f - lastStrumTimeRef s).

(** Returns the updated refs, [didStrum] and [strumDir]. *)
Definition detectStrum (f : Frame) (s : Engine) : Engine * bool * StrumDir :=
  match extractPosition f with
  | Some (x, y) =>
      if inStrumZone f x y then
        match lastYRef s with
        | Some lastY =>
            if strumFires f s lastY y then
              (setDetector s (Some y) true (now f), true,
               if Qltb 0 (y - lastY) then down else up)
            else (setDetector s (Some y) (isStrummingRef s) (lastStrumTimeRef s),
                  false, down)
        | None =>
            (setDetector s (Some y) (isStrummingRef s) (lastStrumTimeRef s),
             false, down)
        end
      else (setDetector s None false (lastStrumTimeRef s), false, down)
  | None => (s, false, down)
  end.

(** ** One animation frame: [gameLoop] *)

(** [notes.filter(n => n.x < CANVAS_W + 200 && !n.hit)] *)
Definition keepNote (CANVAS_W : Z) (n : Note) : bool :=
  (note_x n <? CANVAS_W + 200) && negb (hit n).

Definition setJudged (s : Engine) (sc : Score) (notes : list Note) : Engine :=
  mkEngine sc notes (nextNoteId s) (lastNoteSpawnTime s)
    (isAudioStartedRef s) (lastYRef s) (isStrummingRef s) (lastStrumTimeRef s)
    (fretStatesRef s) (currentChordRef s) (gameStartTimeRef s).

(** [if (isAudioStartedRef.current) spawnNote();] *)
Definition afterSpawn (f : Frame) (s : Engine) : Engine :=
  if isAudioStartedRef s then spawnNote f s else s.

(** Returns the new refs, whether this frame strummed, and the calls made. *)
Definition gameLoop (f : Frame) (s : Engine) : Engine * bool * list Effect :=
  let s1 := afterSpawn f s in
  let '(s2, didStrum, strumDir) := detectStrum f s1 in
  let '(notes, sc, ev) :=
    judgeNotes didStrum strumDir (fretStatesRef s2) (HIT_ZONE_X (dims_w f))
               (notesRef s2) (score s2) in
  (setJudged s2 sc (List.filter (keepNote (dims_w f)) notes), didStrum, ev).

Definition stepEngine (f : Frame) (s : Engine) : Engine := fst (fst (gameLoop f s)).

(** The refs as [useRef] initialises them. *)
Definition initEngine : Engine :=
  mkEngine (mkScore 0 0 0 0 0) [] 0 0 false None false 0
    [None; None; None; None; None; None] "C" None.

(** [handleStart], at time [t]. *)
Definition handleStart (t : Z) (s : Engine) : Engine :=
  mkEngine (score s) (notesRef s) (nextNoteId s) (lastNoteSpawnTime s)
    true (lastYRef s) (isStrummingRef s) (lastStrumTimeRef s)
    (fretStatesRef s) (currentChordRef s) (Some t).

(** ** The fret store: the [chord_change] and [FRET_UPDATE] branches of
    [ws.onmessage] *)

(** One element of [payload.fingering]. *)
Record Fingering := mkFingering { fg_string : Z; fg_fret : Z }.

(** The guarded assignment [fretStates[stringIndex] = fret]: the slot and
    the value written, or [None] when the guard rejects the entry. *)
Definition fingeringWrite (e : Fingering) : option (nat * Z) :=
  let stringIndex := 6 - fg_string e in
  if (0 <=? stringIndex) && (stringIndex <? 6)
  then Some (Z.to_nat stringIndex, fg_fret e)
  else None.

(** The callback of [payload.fingering.forEach]. *)
Definition applyFingering (fretStates : list (option Z)) (e : Fingering)
  : list (option Z) :=
  match fingeringWrite e with
  | Some (i, v) => <[i := Some v]> fretStates
  | None => fretStates
  end.

Definition chordFretStates (fingering : option (list Fingering)) : list (option Z) :=
  match fingering with
  | Some es => fold_left applyFingering es [None; None; None; None; None; None]
  | None => [None; None; None; None; None; None]
  end.

Inductive Payload :=
| chord_change (chord : option string) (fingering : option (list Fingering))
| strings_pressed
| strings_released
| FRET_UPDATE (payload : list Z)
| other_message.

Definition setFrets (s : Engine) (frets : list (option Z)) (chord : string) : Engine :=
  mkEngine (score s) (notesRef s) (nextNoteId s) (lastNoteSpawnTime s)
    (isAudioStartedRef s) (lastYRef s) (isStrummingRef s) (lastStrumTimeRef s)
    frets chord (gameStartTimeRef s).

(** [payload.chord || 'C'] *)
Definition chordOrC (chord : option string) : string :=
  match chord with
  | Some c => if String.eqb c "" then "C" else c
  | None => "C"
  end.

Definition onmessage (p : Payload) (s : Engine) : Engine :=
  match p with
  | chord_change chord fingering =>
      setFrets s (chordFretStates fingering) (chordOrC chord)
  | FRET_UPDATE payload =>
      setFrets s (map (fun v => if v =? -1 then None else Some v) payload)
               (currentChordRef s)
  | _ => s
  end.

(** ** Leaving the session: [handleExit] and [App] *)

Inductive AppRole := LOBBY | PC_PLAYER | MOBILE_CONTROLLER.

Record App := mkApp { role : AppRole; roomId : string }.

(** [interface ScoreData] of [BackendService]. *)
Record ScoreData := mkScoreData {
  player_id : string;
  sd_score : Z;
  max_combo : Z;
  perfect_count : Z;
  great_count : Z;
  miss_count : Z
}.

(** Requests that [BackendService] can post. *)
Inductive Request :=
| submitScore (data : ScoreData)
| submitPlayHistory (player : string) (sc mc duration : Z).

(** [App.handleExit]: [setRole(AppRole.LOBBY)]. *)
Definition App_handleExit (a : App) : App := mkApp LOBBY (roomId a).

(** [PCPlayer.handleExit]: [onExit()] and nothing else.  Returns the
    application state, the refs, and the backend requests issued. *)
Definition handleExit (onExit : App -> App) (a : App) (s : Engine)
  : App * Engine * list Request :=
  (onExit a, s, []).

(** [n] presses of the exit button. *)
Fixpoint exitTimes (n : nat) (a : App) (s : Engine) : App * Engine * list Request :=
  match n with
  | O => (a, s, [])
  | S k =>
      let '(a1, s1, r1) := handleExit App_handleExit a s in
      let '(a2, s2, r2) := exitTimes k a1 s1 in
      (a2, s2, r1 ++ r2)
  end.

(** ** Sessions *)

(** What happens to the component between mount and exit: an animation
    frame ([requestAnimationFrame(() => gameLoop(model))]), a message on the
    socket, or a press of the start button at time [t]. *)
Inductive Event :=
| Tick (f : Frame)
| Message (p : Payload)
| Start (t : Z).

Definition handleEvent (e : Event) (s : Engine) : Engine :=
  match e with
  | Tick f => stepEngine f s
  | Message p => onmessage p s
  | Start t => handleStart t s
  end.

Fixpoint run (es : list Event) (s : Engine) : Engine :=
  match es with
  | [] => s
  | e :: es' => run es' (handleEvent e s)
  end.

Definition ticks (fs : list Frame) : list Event := map Tick fs.

Fixpoint countTicks (es : list Event) : nat :=
  match es with
  | [] => O
  | Tick _ :: es' => S (countTicks es')
  | _ :: es' => countTicks es'
  end.

(** The time of the strum an event emits, if it emits one. *)
Definition strumOf (e : Event) (s : Engine) : list Z :=
  match e with
  | Tick f => if snd (fst (gameLoop f s)) then [now f] else []
  | _ => []
  end.

(** The times of the strums emitted over a session, in order. *)
Fixpoint strumTimes (es : list Event) (s : Engine) : list Z :=
  match es with
  | [] => []
  | e :: es' => strumOf e s ++ strumTimes es' (handleEvent e s)
  end.

(** The window of 150 ms that starts at [t0]. *)
Definition inWindow (t0 t : Z) : bool := (t0 <=? t) && (t <=? t0 + 150).

(** ** Sample inputs *)

Definition score0 : Score := mkScore 0 0 0 0 0.

(** A 1280 pixel wide canvas: the hit line is at 1030.  The two notes were
    spawned seven frames apart and sit, once advanced, 106 before and 6
    after the hit line. *)
Definition twoNotes : list Note :=
  [mkNote 0 1020 "C" false false; mkNote 1 908 "C" false false].

(** A pending note that the next advance puts exactly on the hit line. *)
Definition noteOnLine : Note := mkNote 7 1014 "G" false false.

(** A hand whose wrist is at [(wristX, wristY)] and whose other keypoints,
    the fingertips among them, are at height [tipY]. *)
Definition handAt (wristX wristY tipY : Q) : Hand :=
  mkHand ((wristX, wristY) :: repeat (wristX, tipY) 20).

(** Frame number [k] of a session on a 1280x720 canvas and camera that
    renders a frame every 160 ms; the hands are estimated 100 ms later. *)
Definition slowFrame (k : Z) (hands : list Hand) : Frame :=
  mkFrame 1280 720 1280 720 (160 * k) 0 hands (160 * k + 100).

(** 75 frames without a hand, then one downward stroke through the middle
    of the strum zone. *)
Definition slowSession : list Frame :=
  map (fun k => slowFrame (Z.of_nat k) []) (seq 1 75)
  ++ [slowFrame 76 [handAt 400 500 500]; slowFrame 77 [handAt 400 500 650]].

(** A frame of the same session at time [t], without a hand. *)
Definition quietFrame (t : Z) : Frame := mkFrame 1280 720 1280 720 t 0 [] t.

(** The session 1.2 s after the start: the first note has just been spawned
    and advanced once. *)
Definition oneNoteEngine : Engine :=
  run [Start 0; Tick (quietFrame 1200)] initEngine.

(** Two ways to get from [oneNoteEngine] to the time 2200: two frames half a
    second apart, or a single frame after one second. *)
Definition ticksA : list Frame := [quietFrame 1700; quietFrame 2200].
Definition ticksB : list Frame := [quietFrame 2200].

(** [k] frames without a hand, one every 100 ms, from the time 1200 on. *)
Definition quietSession (k : nat) : list Frame :=
  map (fun i => quietFrame (1200 + 100 * Z.of_nat i)) (seq 0 k).

(** After 79 such frames the first note has run past the window. *)
Definition missedEngine : Engine := run (Start 0 :: ticks (quietSession 79)) initEngine.
Definition missedNote : Note := mkNote 0 1164 "C" false true.

(** A frame of the same session at time [t] with one hand in front of the
    strum zone, its fingertips at height [tipY].  The zone spans the heights
    468 to 684 and its midline is at 576. *)
Definition handFrame (t : Z) (tipY : Q) : Frame :=
  mkFrame 1280 720 1280 720 t 0 [handAt 400 500 tipY] t.

(** A hand above the midline, a frame on which no hand is detected, and
    the hand back below the midline. *)
Definition gapSession : list Frame :=
  [handFrame 1000 500; quietFrame 1200; handFrame 1400 650].

(** The same, with the hand seen below the zone on the middle frame. *)
Definition outOfZoneSession : list Frame :=
  [handFrame 1000 500; handFrame 1200 700; handFrame 1400 650].

(** A hand with the wrist at one place and every other keypoint at another. *)
Definition openHand (wrist tip : Q * Q) : Hand := mkHand (wrist :: repeat tip 20).

Definition handNear : Hand := openHand (100, 500)%Q (160, 520)%Q.
Definition handFar : Hand := openHand (500, 500)%Q (560, 600)%Q.
Definition handTied : Hand := openHand (100, 500)%Q (130, 640)%Q.

(** Two hands below the gate line, at different wrist abscissas. *)
Definition twoHandsFrame : Frame :=
  mkFrame 1280 720 1280 720 1000 0 [handNear; handFar] 1000.

(** Two hands below the gate line, at the same wrist abscissa. *)
Definition tiedHandsFrame : Frame :=
  mkFrame 1280 720 1280 720 1000 0 [handNear; handTied] 1000.


(** The entry is for one of the six strings. *)
Definition validString (e : Fingering) : bool :=
  (1 <=? fg_string e) && (fg_string e <=? 6).

(** A pending note that the next advance puts past the window. *)
Definition lateNote : Note := mkNote 8 1140 "C" false false.

(** ** The two score updates of the judge, on their own *)

(** What the hit branch makes of the counters when the hit is perfect, and
    what the miss branch makes of them. *)
Definition hitScore (sc : Score) : Score :=
  mkScore (scoreRef sc + 1000) (comboRef sc + 1) (perfectCountRef sc + 1)
          (greatCountRef sc) (missCountRef sc).

Definition missScore (sc : Score) : Score :=
  mkScore (scoreRef sc) 0 (perfectCountRef sc) (greatCountRef sc)
          (missCountRef sc + 1).

(** ** Well-formed engine states and the life of one note *)

(** Note ids are pairwise distinct and below [nextNoteId], and no note is
    flagged both hit and missed. *)
Definition wfEngine (s : Engine) : Prop :=
  NoDup (map note_id (notesRef s))
  /\ Forall (fun n => note_id n < nextNoteId s) (notesRef s)
  /\ Forall (fun n => hit n && missed n = false) (notesRef s).

(** [n'] is what one iteration of the judge loop, in some frame, makes of [n]. *)
Definition noteStep (n n' : Note) : Prop :=
  exists didStrum strumDir frets HZ sc,
    n' = fst (fst (judgeNote didStrum strumDir frets HZ n sc)).

(** [k] iterations in a row. *)
Fixpoint noteSteps (k : nat) (n n' : Note) : Prop :=
  match k with
  | O => n' = n
  | S k' => exists n1, noteStep n n1 /\ noteSteps k' n1 n'
  end.

(** ** The socket: what [ws.onmessage] makes of what arrives *)

(** A message object as the handler reads it: its [type] and the optional
    fields [chord], [fingering], [frets], [payload] and [timestamp]. *)
Record Wire := mkWire {
  w_type : string;
  w_chord : option string;
  w_fingering : option (list Fingering);
  w_frets : option (list (option Z));
  w_payload : option (list Z);
  w_timestamp : option Z
}.

(** [event.data]: text that [JSON.parse] rejects, an object
    [{ type: "data", payload: inner }], or any other object. *)
Inductive Packet :=
| malformed
| wrapped (inner : option Wire)
| bare (w : Wire).

(** The chain of tests on [payload.type].  A [FRET_UPDATE] without its
    array makes [map] throw before anything is assigned, and the [catch]
    only logs. *)
Definition readPayload (w : Wire) : Payload :=
  if String.eqb (w_type w) "chord_change" then chord_change (w_chord w) (w_fingering w)
  else if String.eqb (w_type w) "strings_pressed" then strings_pressed
  else if String.eqb (w_type w) "strings_released" then strings_released
  else if String.eqb (w_type w) "FRET_UPDATE" then
    match w_payload w with
    | Some payload => FRET_UPDATE payload
    | None => other_message
    end
  else other_message.

(** [ws.onmessage], from the parsed text on:
    [payload = data.type === 'data' ? data.payload : data], inside [try]. *)
Definition receive (d : Packet) (s : Engine) : Engine :=
  match d with
  | malformed => s
  | wrapped None => s
  | wrapped (Some w) => onmessage (readPayload w) s
  | bare w => if String.eqb (w_type w) "data" then s else onmessage (readPayload w) s
  end.

(** ** The phone: [GuitarScreen] *)

Record Mobile := mkMobile {
  selectedChord : string;
  socketOpen : bool;             (* wsRef.current?.readyState === WebSocket.OPEN *)
  m_fretStatesRef : list (option Z)
}.

Definition CHORDS : list (string * list (option Z)) :=
  [("C", [None; None; None; None; None; None]);
   ("C (押さない)", [Some (-1); Some (-1); Some (-1); Some (-1); Some (-1); Some (-1)]);
   ("D", [None; Some (-1); Some 0; Some 0; None; None]);
   ("G", [Some 2; None; None; Some 0; Some 0; None]);
   ("G (開放弦)", [Some (-1); Some (-1); Some (-1); Some (-1); Some (-1); Some (-1)]);
   ("Em", [Some 0; Some 2; Some 2; Some 0; None; None]);
   ("Am", [None; Some 0; Some 2; Some 2; Some 1; None]);
   ("F", [None; None; None; Some 2; None; None])].

Definition initMobile : Mobile :=
  mkMobile "C (押さない)" false
           [Some (-1); Some (-1); Some (-1); Some (-1); Some (-1); Some (-1)].

(** [sendChordChange], at time [t]: the new state and what is sent. *)
Definition sendChordChange (chordName : string) (frets : list (option Z)) (t : Z)
    (m : Mobile) : Mobile * option Wire :=
  if socketOpen m then
    (mkMobile (selectedChord m) (socketOpen m) frets,
     Some (mkWire "chord_change" (Some chordName) None (Some frets) None (Some t)))
  else (m, None).

(** The [onPress] of a chord button. *)
Definition pressChord (chord : string * list (option Z)) (t : Z) (m : Mobile)
  : Mobile * option Wire :=
  sendChordChange (fst chord) (snd chord) t
    (mkMobile (fst chord) (socketOpen m) (m_fretStatesRef m)).

(** [sendOpenStrings], at time [t]. *)
Definition sendOpenStrings (t : Z) (m : Mobile) : Mobile * option Wire :=
  (m,
   if socketOpen m then
     Some (mkWire "chord_change" (Some "開放弦") None
             (Some [Some (-1); Some (-1); Some (-1); Some (-1); Some (-1); Some (-1)])
             None (Some t))
   else None).

(** ** The application shell: [App] and [Lobby] *)

(** [startPCMode] *)
Definition startPCMode (id : string) (a : App) : App := mkApp PC_PLAYER id.

(** [handleRoleSelect] *)
Definition handleRoleSelect (selectedRole : AppRole) (id : string) (a : App) : App :=
  match selectedRole with
  | PC_PLAYER => startPCMode id a
  | _ => a
  end.

(** [(initialRoomId || 'TEST').toUpperCase()], with the built-in
    [toUpperCase] as a parameter. *)
Definition displayRoomId (toUpperCase : string -> string) (initialRoomId : string)
  : string :=
  toUpperCase (if String.eqb initialRoomId "" then "TEST" else initialRoomId).

(** [Lobby.handlePCSession], with [App.handleRoleSelect] as [onSelect]. *)
Definition handlePCSession (toUpperCase : string -> string) (a : App) : App :=
  handleRoleSelect PC_PLAYER (displayRoomId toUpperCase (roomId a)) a.

(** [Lobby.handleMobileSession]: the new state and the alerts raised. *)
Definition handleMobileSession (toUpperCase : string -> string) (a : App)
  : App * list string :=
  if (String.length (displayRoomId toUpperCase (roomId a)) =? 4)%nat
  then (handleRoleSelect MOBILE_CONTROLLER (displayRoomId toUpperCase (roomId a)) a, [])
  else (a, ["Invalid Room ID"]).

(** What the user can set off: the two handlers of the lobby and the
    abort button of the player.  A handler runs only while its component
    is rendered. *)
Inductive Click := PCSessionClick | MobileSessionClick | AbortClick.

Definition click (toUpperCase : string -> string) (a : App) (c : Click) : App :=
  match role a, c with
  | LOBBY, PCSessionClick => handlePCSession toUpperCase a
  | LOBBY, MobileSessionClick => fst (handleMobileSession toUpperCase a)
  | PC_PLAYER, AbortClick => App_handleExit a
  | _, _ => a
  end.

(** ** Shapes of sessions and readings of the counters *)

Definition isStart (e : Event) : bool :=
  match e with Start _ => true | _ => false end.

Definition isMessage (e : Event) : bool :=
  match e with Message _ => true | _ => false end.

(** The notes resolved as hits so far. *)
Definition hitCount (sc : Score) : Z := perfectCountRef sc + greatCountRef sc.

(** The time of the spawn an event performs, if it performs one: a frame
    has spawned when it has drawn a fresh id. *)
Definition spawnOf (e : Event) (s : Engine) : list Z :=
  match e with
  | Tick f => if nextNoteId (stepEngine f s) =? nextNoteId s then [] else [spawnNow f]
  | _ => []
  end.

(** The times of the spawns of a session, in order. *)
Fixpoint spawnTimes (es : list Event) (s : Engine) : list Z :=
  match es with
  | [] => []
  | e :: es' => spawnOf e s ++ spawnTimes es' (handleEvent e s)
  end.

(** Every frame of the session sees a canvas of width [W]. *)
Definition fixedWidth (W : Z) (es : list Event) : Prop :=
  Forall (fun e => match e with Tick f => dims_w f = W | _ => True end) es.

(** No note of the list is flagged hit, every note is short of the
    off-track margin [W + 200], and a pending one will still be after one
    more advance. *)
Definition onTrack (W : Z) (s : Engine) : Prop :=
  Forall (fun n => hit n = false /\ note_x n < W + 200
                   /\ (isPending n = true -> note_x n < W + 184))
         (notesRef s).

(** How many notes of a list satisfy [p]. *)
Fixpoint countNotes (p : Note -> bool) (notes : list Note) : Z :=
  match notes with
  | [] => 0
  | n :: rest => Z.b2z (p n) + countNotes p rest
  end.

(** ** Readings of the calls a frame makes *)

Definition isPlayStrum (ev : Effect) : bool :=
  match ev with playStrum _ _ => true | _ => false end.

Definition isPlayMuted (ev : Effect) : bool :=
  match ev with playMuted => true | _ => false end.

Definition countEffects (p : Effect -> bool) (evs : list Effect) : Z :=
  Z.of_nat (length (List.filter p evs)).

(** The combo and the score on display after the calls [evs], when [v] was
    on display before them. *)
Definition shownCombo (evs : list Effect) (v : Z) : Z :=
  fold_left (fun acc ev => match ev with setComboDisplay c => c | _ => acc end) evs v.

Definition shownScore (evs : list Effect) (v : Z) : Z :=
  fold_left (fun acc ev => match ev with setScoreDisplay c => c | _ => acc end) evs v.

(** A frame of the same session with one hand whose fingertips are below
    the strum zone, which ends at the height 684. *)
Definition lowHandFrame (t : Z) : Frame := handFrame t 700.

(** ** What a session is for the game *)

(** Every ref of the engine but the fret state and the chord name. *)
Definition gameView (s : Engine)
  : Score * list Note * Z * Z * bool * option Q * bool * Z * option Z :=
  (score s, notesRef s, nextNoteId s, lastNoteSpawnTime s, isAudioStartedRef s,
   lastYRef s, isStrummingRef s, lastStrumTimeRef s, gameStartTimeRef s).

(** The session without its messages. *)
Definition withoutMessages (es : list Event) : list Event :=
  List.filter (fun e => negb (isMessage e)) es.

(** ** A frame and what runs while it waits *)

(** What can run between the two halves of [gameLoop], while
    [await model.estimateHands(...)] is pending: the handler of a socket
    message, or [handleStart] at time [t].  Another [gameLoop] cannot: the
    next one is requested at the end of this one. *)
Inductive Async :=
| MessageDuring (p : Payload)
| StartDuring (t : Z).

Definition handleAsync (a : Async) (s : Engine) : Engine :=
  match a with
  | MessageDuring p => onmessage p s
  | StartDuring t => handleStart t s
  end.

(** The handlers [during], run in the order in which they come. *)
Definition duringAwait (during : list Async) (s : Engine) : Engine :=
  fold_left (fun s a => handleAsync a s) during s.

(** [gameLoop] from the line after the [await] on. *)
Definition afterAwait (f : Frame) (s1 : Engine) : Engine * bool * list Effect :=
  let '(s2, didStrum, strumDir) := detectStrum f s1 in
  let '(notes, sc, ev) :=
    judgeNotes didStrum strumDir (fretStatesRef s2) (HIT_ZONE_X (dims_w f))
               (notesRef s2) (score s2) in
  (setJudged s2 sc (List.filter (keepNote (dims_w f)) notes), didStrum, ev).

(** [gameLoop] with the handlers [during] run while it waits. *)
Definition gameLoopAwait (f : Frame) (during : list Async) (s : Engine)
  : Engine * bool * list Effect :=
  afterAwait f (duringAwait during (afterSpawn f s)).

(** The messages and the presses of the start button among [during], as
    events of a session. *)
Definition messagesOf (during : list Async) : list Event :=
  flat_map (fun a => match a with MessageDuring p => [Message p] | StartDuring _ => [] end)
           during.

Definition startsOf (during : list Async) : list Event :=
  flat_map (fun a => match a with StartDuring t => [Start t] | MessageDuring _ => [] end)
           during.

(** A pending note that the next advance puts on the hit line, and a hand
    last seen above the midline. *)
Definition readyToStrum : Engine :=
  mkEngine score0 [noteOnLine] 8 0 false (Some 500%Q) false 0
    [None; None; None; None; None; None] "C" None.

(** ** The socket, on the values [JSON.parse] returns *)

(** A JavaScript number: a double, idealised as a rational (so [6 - q] is
    not rounded), or one of the three numbers that are not finite. *)
Inductive Num := NaN | PosInfinity | NegInfinity | Fin (q : Q).

(** A JavaScript value as [JSON.parse] builds it, with [undefined] for what
    reading an absent property gives.  An object is the list of its members
    in the order of the text; of two members of one name the later counts. *)
#[warnings="-register-all"]
Inductive Value :=
| Vundefined
| Vnull
| Vbool (b : bool)
| Vnum (n : Num)
| Vstr (s : string)
| Varr (items : list Value)
| Vobj (members : list (string * Value)).

Fixpoint member (name : string) (members : list (string * Value)) : option Value :=
  match members with
  | [] => None
  | (k, v) :: rest =>
      match member name rest with
      | Some v' => Some v'
      | None => if String.eqb k name then Some v else None
      end
  end.

(** [v.name], for the names the handler reads ([type], [payload], [chord],
    [fingering], [string], [fret]): no prototype has a property of such a
    name, so the value is [undefined] unless [v] is an object with that
    member.  [None] is the [TypeError] of reading a property of [null] or
    [undefined]. *)
Definition getProp (v : Value) (name : string) : option Value :=
  match v with
  | Vundefined | Vnull => None
  | Vobj members =>
      Some (match member name members with Some x => x | None => Vundefined end)
  | _ => Some Vundefined
  end.

(** [ToBoolean] *)
Definition truthy (v : Value) : bool :=
  match v with
  | Vundefined | Vnull => false
  | Vbool b => b
  | Vnum NaN => false
  | Vnum (Fin q) => negb (Qeq_bool q 0)
  | Vnum _ => true
  | Vstr s => negb (String.eqb s "")
  | Varr _ | Vobj _ => true
  end.

(** [v === lit] for a string literal, and [v === -1]. *)
Definition isStr (v : Value) (lit : string) : bool :=
  match v with Vstr s => String.eqb s lit | _ => false end.

Definition isMinusOne (v : Value) : bool :=
  match v with Vnum (Fin q) => Qeq_bool q (-1) | _ => false end.

(** [6 - n], [n >= 0] and [n < 6] on numbers. *)
Definition sixMinus (n : Num) : Num :=
  match n with
  | NaN => NaN
  | PosInfinity => NegInfinity
  | NegInfinity => PosInfinity
  | Fin q => Fin (6 - q)
  end.

Definition geZero (n : Num) : bool :=
  match n with Fin q => Qleb 0 q | PosInfinity => true | _ => false end.

Definition ltSix (n : Num) : bool :=
  match n with Fin q => Qltb q 6 | NegInfinity => true | _ => false end.

(** An array object: its elements, and the properties it has under names
    that are not array indices, the latest assignment first. *)
Record FretArray := mkFretArray {
  slots : list Value;
  named : list (Num * Value)
}.

(** [const fretStates = [null, null, null, null, null, null]] *)
Definition sixNulls : FretArray :=
  mkFretArray [Vnull; Vnull; Vnull; Vnull; Vnull; Vnull] [].

(** [q] is a whole number. *)
Definition isWhole (q : Q) : bool := Qeq_bool (inject_Z (Qfloor q)) q.

(** [a[key] = v].  A whole number from 0 to 2^32 - 2 is an array index: the
    element is set, and an array too short is extended, the elements in
    between reading as [undefined].  Any other number names an ordinary
    property of the object and leaves the elements alone. *)
Definition assign (a : FretArray) (key : Num) (v : Value) : FretArray :=
  match key with
  | Fin q =>
      if isWhole q && (0 <=? Qfloor q) && (Qfloor q <? 4294967295) then
        let i := Z.to_nat (Qfloor q) in
        if (i <? length (slots a))%nat
        then mkFretArray (<[i := v]> (slots a)) (named a)
        else mkFretArray
               (slots a ++ repeat Vundefined (i - length (slots a)) ++ [v])
               (named a)
      else mkFretArray (slots a) ((Fin (Qred q), v) :: named a)
  | _ => mkFretArray (slots a) ((key, v) :: named a)
  end.

(** The refs the handler assigns. *)
Record SocketRefs := mkSocketRefs {
  fretStates_current : FretArray;     (* fretStatesRef.current *)
  currentChord_current : Value        (* currentChordRef.current *)
}.

Section Socket.
(** [ToNumber] of a string, an array or an object, which the language
    defines by parsing and by the [toString] of arrays and objects: the
    number, or [None] for the [TypeError] of an object that has no callable
    [valueOf] or [toString]. *)
Variable ToNumberOther : Value -> option Num.

(** [ToNumber], as the subtraction [6 - string] applies it. *)
Definition ToNumber (v : Value) : option Num :=
  match v with
  | Vundefined => Some NaN
  | Vnull => Some (Fin 0)
  | Vbool b => Some (Fin (if b then 1 else 0))
  | Vnum n => Some n
  | _ => ToNumberOther v
  end.

(** The callback of [payload.fingering.forEach]: the destructuring of the
    entry, the index, the guard and the assignment.  [None] when the entry
    is [null] or the subtraction throws. *)
Definition fingeringCallback (fretStates : FretArray) (entry : Value)
  : option FretArray :=
  match getProp entry "string", getProp entry "fret" with
  | Some string, Some fret =>
      match ToNumber string with
      | Some n =>
          let stringIndex := sixMinus n in
          if geZero stringIndex && ltSix stringIndex
          then Some (assign fretStates stringIndex fret)
          else Some fretStates
      | None => None
      end
  | _, _ => None
  end.

(** [forEach]: the entries in order, up to the first that throws. *)
Fixpoint forEachEntry (entries : list Value) (fretStates : FretArray)
  : option FretArray :=
  match entries with
  | [] => Some fretStates
  | entry :: rest =>
      match fingeringCallback fretStates entry with
      | Some fretStates' => forEachEntry rest fretStates'
      | None => None
      end
  end.

(** The [chord_change] branch: the two values assigned, or [None] when it
    throws before the assignments.  A [fingering] that is truthy and not an
    array has no [forEach] to call. *)
Definition chordChangeBranch (payload : Value) : option SocketRefs :=
  match getProp payload "fingering", getProp payload "chord" with
  | Some fingering, Some chord =>
      match (if truthy fingering then
               match fingering with
               | Varr entries => forEachEntry entries sixNulls
               | _ => None
               end
             else Some sixNulls) with
      | Some fretStates =>
          Some (mkSocketRefs fretStates (if truthy chord then chord else Vstr "C"))
      | None => None
      end
  | _, _ => None
  end.

(** The [FRET_UPDATE] branch: [payload.payload.map(v => v === -1 ? null : v)];
    only an array has a [map] to call. *)
Definition fretUpdateBranch (payload : Value) (r : SocketRefs) : option SocketRefs :=
  match getProp payload "payload" with
  | Some (Varr items) =>
      Some (mkSocketRefs
              (mkFretArray (map (fun v => if isMinusOne v then Vnull else v) items) [])
              (currentChord_current r))
  | _ => None
  end.

(** [data.type === 'data' ? data.payload : data] *)
Definition payloadOf (data : Value) : option Value :=
  match getProp data "type" with
  | Some type => if isStr type "data" then getProp data "payload" else Some data
  | None => None
  end.

(** The body of the [try], from the parsed text on. *)
Definition handleData (data : Value) (r : SocketRefs) : option SocketRefs :=
  match payloadOf data with
  | Some payload =>
      match getProp payload "type" with
      | Some ptype =>
          if isStr ptype "chord_change" then chordChangeBranch payload
          else if isStr ptype "strings_pressed" then Some r
          else if isStr ptype "strings_released" then Some r
          else if isStr ptype "FRET_UPDATE" then fretUpdateBranch payload r
          else Some r
      | None => None
      end
  | None => None
  end.

(** [ws.onmessage] on the result of [JSON.parse] ([None] when the text does
    not parse): whatever is thrown is caught and logged, and the refs are
    then as they were. *)
Definition ws_onmessage (parsed : option Value) (r : SocketRefs) : SocketRefs :=
  match parsed with
  | Some data =>
      match handleData data r with
      | Some r' => r'
      | None => r
      end
  | None => r
  end.

(** *** What a fingering says about one string *)

(** The number an entry gives as its string, when the callback gets that far. *)
Definition stringNumber (entry : Value) : option Num :=
  match getProp entry "string" with
  | Some string => ToNumber string
  | None => None
  end.

Definition entryFret (entry : Value) : Value :=
  match getProp entry "fret" with
  | Some fret => fret
  | None => Vundefined
  end.

(** The entry is for the string [k]. *)
Definition forString (k : Z) (entry : Value) : bool :=
  match stringNumber entry with
  | Some (Fin q) => Qeq_bool q (inject_Z k)
  | _ => false
  end.

(** The entry's string is no number, or a number that is at most 0 or
    greater than 6. *)
Definition outOfRange (entry : Value) : bool :=
  match stringNumber entry with
  | Some (Fin q) => Qleb q 0 || Qltb 6 q
  | Some _ => true
  | None => false
  end.


End Socket.

(** *** Well-typed messages as values *)

Definition numZ (z : Z) : Value := Vnum (Fin (inject_Z z)).

(** [{ string, fret }] *)
Definition entryOf (string fret : Value) : Value :=
  Vobj [("string", string); ("fret", fret)].

Definition entryValue (e : Fingering) : Value :=
  entryOf (numZ (fg_string e)) (numZ (fg_fret e)).

Definition slotValue (o : option Z) : Value :=
  match o with
  | Some z => numZ z
  | None => Vnull
  end.

(** An array of six slots and nothing else. *)
Definition fretArrayOf (frets : list (option Z)) : FretArray :=
  mkFretArray (map slotValue frets) [].

(** The object a [chord_change] payload of the typed model stands for. *)
Definition payloadValue (chord : option string) (fingering : option (list Fingering))
  : Value :=
  Vobj ([("type", Vstr "chord_change")]
        ++ match chord with Some c => [("chord", Vstr c)] | None => [] end
        ++ match fingering with
           | Some es => [("fingering", Varr (map entryValue es))]
           | None => []
           end).


(** *** Sample messages *)








(** * Properties *)

(** ** Rational comparisons *)

Lemma Qltb_lt (a b : Q) : Qltb a b = true <-> (a < b)%Q.
Proof.
  unfold Qltb. rewrite negb_true_iff, <- not_true_iff_false, Qle_bool_iff.
  split; [apply Qnot_le_lt | apply Qlt_not_le].
Qed.

Lemma Qltb_ge (a b : Q) : Qltb a b = false <-> (b <= a)%Q.
Proof.
  unfold Qltb. rewrite negb_false_iff. apply Qle_bool_iff.
Qed.

Lemma Qleb_le (a b : Q) : Qleb a b = true <-> (a <= b)%Q.
Proof. apply Qle_bool_iff. Qed.

(** On whole distances [dist < 120 / 3.5] says [dist <= 34]. *)
Lemma isPerfectDist_spec (dist : Z) : isPerfectDist dist = true <-> dist <= 34.
Proof.
  unfold isPerfectDist. rewrite Qltb_lt.
  unfold Qlt, Qdiv, Qmult, Qinv, inject_Z, HIT_WINDOW; simpl. lia.
Qed.

(** ** The judge, one note at a time *)

Section JudgeFacts.
Variable didStrum : bool.
Variable strumDir : StrumDir.
Variable frets : list (option Z).
Variable HZ : Z.

Lemma judgeNote_not_pending (n : Note) (sc : Score) :
  isPending n = false -> judgeNote didStrum strumDir frets HZ n sc = (n, sc, []).
Proof. intros H. unfold judgeNote. now rewrite H. Qed.

Lemma judgeNote_id (n : Note) (sc : Score) :
  note_id (fst (fst (judgeNote didStrum strumDir frets HZ n sc))) = note_id n.
Proof.
  unfold judgeNote, strumNote, missNote.
  repeat (match goal with |- context [if ?c then _ else _] => destruct c end;
          simpl); reflexivity.
Qed.

(** A hit and a miss exclude each other: inside the window the note is
    not beyond it. *)
Lemma window_not_beyond (x : Z) :
  Z.abs (x - HZ) < HIT_WINDOW -> (HZ + HIT_WINDOW <? x) = false.
Proof. intros H. apply Z.ltb_ge. lia. Qed.
End JudgeFacts.

(** What one iteration does to a pending note, case by case. *)
Lemma judgeNote_pending (didStrum : bool) (strumDir : StrumDir)
    (frets : list (option Z)) (HZ : Z) (n : Note) (sc : Score) :
  isPending n = true ->
  let x' := note_x n + NOTE_SPEED in
  let dist := Z.abs (x' - HZ) in
  let res := judgeNote didStrum strumDir frets HZ n sc in
  (didStrum = true /\ dist < HIT_WINDOW /\
   fst (fst res) = mkNote (note_id n) x' (chordName n) true false /\
   snd (fst res) =
     mkScore (scoreRef sc + (if isPerfectDist dist then 1000 else 500))
             (comboRef sc + 1)
             (if isPerfectDist dist then perfectCountRef sc + 1 else perfectCountRef sc)
             (if isPerfectDist dist then greatCountRef sc else greatCountRef sc + 1)
             (missCountRef sc))
  \/ ((didStrum = false \/ HIT_WINDOW <= dist) /\ HZ + HIT_WINDOW < x' /\
      fst (fst res) = mkNote (note_id n) x' (chordName n) false true /\
      snd (fst res) =
        mkScore (scoreRef sc) 0 (perfectCountRef sc) (greatCountRef sc)
                (missCountRef sc + 1))
  \/ ((didStrum = false \/ HIT_WINDOW <= dist) /\ x' <= HZ + HIT_WINDOW /\
      fst res = (mkNote (note_id n) x' (chordName n) false false, sc) /\
      snd res = []).
Proof.
  intros Hp x' dist res.
  assert (Hh : hit n = false /\ missed n = false).
  { unfold isPending in Hp. apply andb_true_iff in Hp.
    destruct Hp as [Hp1 Hp2]. apply negb_true_iff in Hp1, Hp2. now split. }
  destruct Hh as [Hh Hm].
  subst res. unfold judgeNote. rewrite Hp. unfold strumNote. simpl note_x.
  fold x'. fold dist. rewrite Hh, Hm.
  destruct didStrum.
  - destruct (Z.ltb_spec dist HIT_WINDOW) as [Hd | Hd].
    + left. unfold missNote. simpl note_x.
      rewrite (window_not_beyond HZ x' Hd). simpl. auto.
    + unfold missNote. simpl note_x.
      destruct (Z.ltb_spec (HZ + HIT_WINDOW) x') as [Hx | Hx]; simpl.
      * right; left. auto.
      * right; right. auto.
  - unfold missNote. simpl note_x.
    destruct (Z.ltb_spec (HZ + HIT_WINDOW) x') as [Hx | Hx]; simpl.
    + right; left. auto.
    + right; right. auto.
Qed.

(** C8.  When a frame strums and a pending note, once advanced, lies at a
    distance below [HIT_WINDOW] from the hit line, the note is marked hit
    (and not missed); it is rated perfect exactly when the distance is below
    [HIT_WINDOW / 3.5], which adds 1000 to the score and one to the perfect
    count, and great otherwise, which adds 500 and one to the great count;
    the combo grows by exactly one and the miss count is untouched.  A note
    exactly on the hit line is perfect. *)
Theorem C8_hit_rating (strumDir : StrumDir) (frets : list (option Z)) (HZ : Z)
    (n : Note) (sc : Score) :
  isPending n = true ->
  Z.abs (note_x n + NOTE_SPEED - HZ) < HIT_WINDOW ->
  let dist := Z.abs (note_x n + NOTE_SPEED - HZ) in
  let perfect := isPerfectDist dist in
  let n' := fst (fst (judgeNote true strumDir frets HZ n sc)) in
  let sc' := snd (fst (judgeNote true strumDir frets HZ n sc)) in
  hit n' = true /\ missed n' = false /\
  (perfect = true <-> (inject_Z dist < inject_Z HIT_WINDOW / 3.5)%Q) /\
  scoreRef sc' = scoreRef sc + (if perfect then 1000 else 500) /\
  perfectCountRef sc' = perfectCountRef sc + (if perfect then 1 else 0) /\
  greatCountRef sc' = greatCountRef sc + (if perfect then 0 else 1) /\
  comboRef sc' = comboRef sc + 1 /\
  missCountRef sc' = missCountRef sc /\
  (note_x n + NOTE_SPEED = HZ -> perfect = true).
Proof.
  intros Hp Hd dist perfect n' sc'.
  destruct (judgeNote_pending true strumDir frets HZ n sc Hp)
    as [(_ & _ & Hn & Hs) | [([Hf | Hf] & _) | ([Hf | Hf] & _)]];
    try discriminate; try (fold dist in Hf; lia).
  subst n' sc'. rewrite Hn, Hs. fold dist. fold perfect. simpl.
  repeat split.
  - unfold perfect, isPerfectDist. apply Qltb_lt.
  - unfold perfect, isPerfectDist. apply Qltb_lt.
  - destruct perfect; lia.
  - destruct perfect; lia.
  - intros Hx. unfold perfect. apply isPerfectDist_spec. subst dist.
    rewrite Hx. rewrite Z.sub_diag. simpl. lia.
Qed.

Lemma C8_hit_rating_witness :
  isPending noteOnLine = true /\
  hit (fst (fst (judgeNote true down [] 1030 noteOnLine score0))) = true /\
  scoreRef (snd (fst (judgeNote true down [] 1030 noteOnLine score0))) = 1000.
Proof.
  split; [reflexivity |].
  pose proof (C8_hit_rating down [] 1030 noteOnLine score0) as H.
  simpl in H.
  assert (Hp : isPending noteOnLine = true) by reflexivity.
  assert (Hd : Z.abs (note_x noteOnLine + NOTE_SPEED - 1030) < HIT_WINDOW)
    by (vm_compute; reflexivity).
  destruct (H Hp Hd) as (Hh & _ & _ & Hs & _).
  split; [exact Hh | exact Hs].
Defined.

(** ** The judge, over the whole list *)

(** Every note of the result is the image of the note at the same place
    by one iteration of the loop, run on some score. *)
Lemma judgeNotes_pointwise (didStrum : bool) (strumDir : StrumDir)
    (frets : list (option Z)) (HZ : Z) (notes : list Note) (sc : Score) :
  Forall2
    (fun n n' =>
       exists sc1, n' = fst (fst (judgeNote didStrum strumDir frets HZ n sc1)))
    notes (fst (fst (judgeNotes didStrum strumDir frets HZ notes sc))).
Proof.
  induction notes as [| n rest IH]; simpl.
  - constructor.
  - destruct (judgeNotes didStrum strumDir frets HZ rest sc)
      as [[rest' sc1] ev1] eqn:Erest.
    destruct (judgeNote didStrum strumDir frets HZ n sc1)
      as [[n' sc2] ev2] eqn:En.
    simpl in *. constructor; [| exact IH].
    exists sc1. now rewrite En.
Qed.

(** C1, as the code has it.  On a frame that strums, every pending note
    whose distance to the hit line (measured after this frame's advance) is
    below [HIT_WINDOW] is marked hit, however many there are; a pending
    note at a distance of [HIT_WINDOW] or more is not hit; and a note that
    is not pending is left as it is. *)
Theorem C1_strum_hits_every_note_in_window (strumDir : StrumDir)
    (frets : list (option Z)) (HZ : Z) (notes : list Note) (sc : Score) :
  Forall2
    (fun n n' =>
       note_id n' = note_id n /\
       (isPending n = true ->
        (hit n' = true <-> Z.abs (note_x n + NOTE_SPEED - HZ) < HIT_WINDOW) /\
        (hit n' = true -> missed n' = false)) /\
       (isPending n = false -> n' = n))
    notes (fst (fst (judgeNotes true strumDir frets HZ notes sc))).
Proof.
  eapply Forall2_impl; [apply judgeNotes_pointwise |].
  intros n n' [sc1 ->]. split; [apply judgeNote_id |]. split.
  - intros Hp.
    destruct (judgeNote_pending true strumDir frets HZ n sc1 Hp)
      as [(_ & Hd & Hn & _) | [([Hf | Hf] & _ & Hn & _) | ([Hf | Hf] & _ & Hn & _)]];
      try discriminate.
    + rewrite Hn; simpl. split; [tauto | reflexivity].
    + rewrite Hn; simpl. split; [split; [discriminate | lia] | discriminate].
    + apply (f_equal fst) in Hn. simpl in Hn. rewrite Hn; simpl.
      split; [split; [discriminate | lia] | discriminate].
  - intros Hp. now rewrite judgeNote_not_pending.
Qed.

(** C1, refuted as stated.  Two pending notes are, once advanced, at
    distances 6 and 106 from the hit line at 1030, both inside the window
    of 120.  One strum marks both of them hit and counts a combo of two,
    where the claim has the farther one stay pending.  The same happens in
    a whole session: [slowSession] emits a single strum, and that strum
    resolves two notes. *)
Lemma C1_single_strum_resolves_two_notes :
  map isPending twoNotes = [true; true] /\
  map (fun n => Z.abs (note_x n + NOTE_SPEED - 1030)) twoNotes = [6; 106] /\
  map hit (fst (fst (judgeNotes true down [] 1030 twoNotes score0))) = [true; true] /\
  snd (fst (judgeNotes true down [] 1030 twoNotes score0)) = mkScore 1500 2 1 1 0 /\
  firstn 2 (notesRef (run (Start 0 :: ticks (firstn 76 slowSession)) initEngine)) = twoNotes /\
  strumTimes (Start 0 :: ticks slowSession) initEngine = [12420] /\
  score (run (Start 0 :: ticks slowSession) initEngine) = mkScore 1500 2 1 1 0.
Proof. vm_compute. repeat split; reflexivity. Qed.

(** ** Frames preserve well-formedness *)

Lemma Forall2_In_r {A B : Type} (R : A -> B -> Prop) (l : list A) (l' : list B) (y : B) :
  Forall2 R l l' -> In y l' -> exists x, In x l /\ R x y.
Proof.
  induction 1 as [| x y' l l' HR HF IH]; simpl; [tauto |].
  intros [<- | Hin].
  - exists x. auto.
  - destruct (IH Hin) as (x' & Hx' & HR'). exists x'. auto.
Qed.

Lemma judgeNotes_ids (didStrum : bool) (strumDir : StrumDir)
    (frets : list (option Z)) (HZ : Z) (notes : list Note) (sc : Score) :
  map note_id (fst (fst (judgeNotes didStrum strumDir frets HZ notes sc)))
  = map note_id notes.
Proof.
  pose proof (judgeNotes_pointwise didStrum strumDir frets HZ notes sc) as H.
  induction H as [| n n' l l' [sc1 ->] _ IH]; simpl; [reflexivity |].
  now rewrite judgeNote_id, IH.
Qed.

Lemma noteStep_id (n n' : Note) : noteStep n n' -> note_id n' = note_id n.
Proof. intros (d & dir & fr & HZ & sc & ->). apply judgeNote_id. Qed.

Lemma noteStep_flags (n n' : Note) :
  noteStep n n' -> hit n && missed n = false -> hit n' && missed n' = false.
Proof.
  intros (d & dir & fr & HZ & sc & ->) Hf.
  destruct (isPending n) eqn:Hp.
  - destruct (judgeNote_pending d dir fr HZ n sc Hp)
      as [(_ & _ & Hn & _) | [(_ & _ & Hn & _) | (_ & _ & Hn & _)]];
      try (apply (f_equal fst) in Hn; simpl in Hn); rewrite Hn; reflexivity.
  - now rewrite judgeNote_not_pending.
Qed.

Lemma NoDup_map_filter {A B : Type} (g : A -> B) (p : A -> bool) (l : list A) :
  NoDup (map g l) -> NoDup (map g (List.filter p l)).
Proof.
  induction l as [| a l IH]; simpl; [auto |].
  intros Hnd. inversion Hnd as [| ? ? Hnotin Hnd']; subst.
  destruct (p a); simpl; [| now apply IH].
  constructor; [| now apply IH].
  intros Hin. apply Hnotin. apply list_elem_of_In, in_map_iff in Hin.
  destruct Hin as (b & Hb & Hin). apply List.filter_In in Hin.
  apply list_elem_of_In, in_map_iff. exists b. tauto.
Qed.

(** The detector block touches the detector refs only. *)
Lemma detectStrum_refs (f : Frame) (s : Engine) :
  let s2 := fst (fst (detectStrum f s)) in
  notesRef s2 = notesRef s /\ nextNoteId s2 = nextNoteId s /\
  score s2 = score s /\ fretStatesRef s2 = fretStatesRef s.
Proof.
  unfold detectStrum.
  repeat (match goal with
          | |- context [match ?c with _ => _ end] => destruct c
          end; simpl); auto.
Qed.

(** [spawnNote] appends at most one fresh pending note. *)
Lemma spawnNote_notes (f : Frame) (s : Engine) :
  (spawnNote f s = s)
  \/ (notesRef (spawnNote f s) =
        notesRef s ++ [mkNote (nextNoteId s) (-100) (nth (randomIndex f) chords "") false false]
      /\ nextNoteId (spawnNote f s) = nextNoteId s + 1).
Proof.
  unfold spawnNote. destruct (1100 <? spawnNow f - lastNoteSpawnTime s); simpl; auto.
Qed.

(** The notes after a frame are the judged notes of the state after
    [spawnNote], filtered. *)
Lemma stepEngine_notes (f : Frame) (s : Engine) :
  exists didStrum strumDir frets sc,
    notesRef (stepEngine f s) =
      List.filter (keepNote (dims_w f))
        (fst (fst (judgeNotes didStrum strumDir frets (HIT_ZONE_X (dims_w f))
                              (notesRef (afterSpawn f s)) sc)))
    /\ nextNoteId (stepEngine f s) = nextNoteId (afterSpawn f s).
Proof.
  unfold stepEngine, gameLoop.
  pose proof (detectStrum_refs f (afterSpawn f s)) as Hrefs.
  destruct (detectStrum f (afterSpawn f s)) as [[s2 d] dir]. simpl in Hrefs.
  destruct Hrefs as (Hn & Hid & Hsc & Hfr).
  exists d, dir, (fretStatesRef s2), (score s2).
  destruct (judgeNotes d dir (fretStatesRef s2) (HIT_ZONE_X (dims_w f))
              (notesRef s2) (score s2)) as [[notes sc] ev] eqn:E.
  simpl. rewrite <- Hn, E. simpl. auto.
Qed.

Lemma afterSpawn_wf (f : Frame) (s : Engine) :
  wfEngine s -> wfEngine (afterSpawn f s) /\ nextNoteId s <= nextNoteId (afterSpawn f s).
Proof.
  intros (Hnd & Hlt & Hfl). unfold afterSpawn.
  destruct (isAudioStartedRef s); [| split; [now repeat split | lia]].
  destruct (spawnNote_notes f s) as [-> | [Hn Hid]]; [split; [now repeat split | lia] |].
  split; [| lia]. unfold wfEngine. rewrite Hn, Hid. repeat split.
  - rewrite map_app. simpl. apply NoDup_app. repeat split; auto.
    + intros x Hx Hx2. apply list_elem_of_In in Hx, Hx2.
      simpl in Hx2. destruct Hx2 as [<- | []].
      apply in_map_iff in Hx. destruct Hx as (n & Hx & Hin).
      rewrite List.Forall_forall in Hlt. specialize (Hlt n Hin). lia.
    + apply NoDup_singleton.
  - apply Forall_app. split.
    + eapply Forall_impl; [exact Hlt |]. simpl. intros; lia.
    + constructor; [simpl; lia | constructor].
  - apply Forall_app. split; [exact Hfl |]. constructor; [reflexivity | constructor].
Qed.

Lemma judgeNotes_In (didStrum : bool) (strumDir : StrumDir)
    (frets : list (option Z)) (HZ : Z) (notes : list Note) (sc : Score) (n' : Note) :
  In n' (fst (fst (judgeNotes didStrum strumDir frets HZ notes sc))) ->
  exists n, In n notes /\ noteStep n n'.
Proof.
  intros Hin.
  destruct (Forall2_In_r _ _ _ _ (judgeNotes_pointwise didStrum strumDir frets HZ notes sc) Hin)
    as (n & Hn & sc1 & ->).
  exists n. split; [exact Hn |]. now exists didStrum, strumDir, frets, HZ, sc1.
Qed.

Lemma stepEngine_In (f : Frame) (s : Engine) (n' : Note) :
  In n' (notesRef (stepEngine f s)) ->
  exists n, In n (notesRef (afterSpawn f s)) /\ noteStep n n'.
Proof.
  destruct (stepEngine_notes f s) as (d & dir & fr & sc & Hn & _).
  rewrite Hn. intros Hin. apply List.filter_In in Hin.
  eapply judgeNotes_In. apply Hin.
Qed.

Lemma stepEngine_wf (f : Frame) (s : Engine) :
  wfEngine s ->
  wfEngine (stepEngine f s) /\ nextNoteId s <= nextNoteId (stepEngine f s).
Proof.
  intros Hwf. destruct (afterSpawn_wf f s Hwf) as [(Hnd & Hlt & Hfl) Hle].
  pose proof (stepEngine_In f s) as Hin.
  destruct (stepEngine_notes f s) as (d & dir & fr & sc & Hn & Hid).
  split; [| lia]. unfold wfEngine. rewrite Hid. repeat split.
  - rewrite Hn. apply NoDup_map_filter. now rewrite judgeNotes_ids.
  - apply List.Forall_forall. intros n' Hn'.
    destruct (Hin n' Hn') as (n & Hnin & Hst).
    rewrite (noteStep_id _ _ Hst).
    rewrite List.Forall_forall in Hlt. now apply Hlt.
  - apply List.Forall_forall. intros n' Hn'.
    destruct (Hin n' Hn') as (n & Hnin & Hst).
    apply (noteStep_flags _ _ Hst).
    rewrite List.Forall_forall in Hfl. now apply Hfl.
Qed.

(** A note present after a frame whose id was already handed out before
    the frame comes from a note present before it. *)
Lemma stepEngine_ancestor (f : Frame) (s : Engine) (n' : Note) :
  In n' (notesRef (stepEngine f s)) -> note_id n' < nextNoteId s ->
  exists n, In n (notesRef s) /\ noteStep n n'.
Proof.
  intros Hin Hlt. destruct (stepEngine_In f s n' Hin) as (n & Hn & Hst).
  exists n. split; [| exact Hst].
  unfold afterSpawn in Hn. destruct (isAudioStartedRef s); [| exact Hn].
  destruct (spawnNote_notes f s) as [He | [He _]]; rewrite He in Hn; [exact Hn |].
  apply in_app_or in Hn. destruct Hn as [Hn | [<- | []]]; [exact Hn |].
  apply noteStep_id in Hst. simpl in Hst. lia.
Qed.

(** A message or a press of the start button leaves the notes, the id
    counter and the detector refs alone. *)
Lemma handleEvent_other (e : Event) (s : Engine) :
  (forall f, e <> Tick f) ->
  notesRef (handleEvent e s) = notesRef s
  /\ nextNoteId (handleEvent e s) = nextNoteId s
  /\ lastStrumTimeRef (handleEvent e s) = lastStrumTimeRef s
  /\ strumOf e s = [].
Proof.
  destruct e as [f | p | t]; intros Hne.
  - now destruct (Hne f).
  - destruct p; simpl; auto.
  - simpl; auto.
Qed.

Lemma handleEvent_wf (e : Event) (s : Engine) :
  wfEngine s ->
  wfEngine (handleEvent e s) /\ nextNoteId s <= nextNoteId (handleEvent e s).
Proof.
  intros Hwf. destruct e as [f | p | t].
  - now apply stepEngine_wf.
  - destruct (handleEvent_other (Message p) s ltac:(discriminate)) as (Hn & Hid & _).
    unfold wfEngine. rewrite Hn, Hid. split; [exact Hwf | lia].
  - destruct (handleEvent_other (Start t) s ltac:(discriminate)) as (Hn & Hid & _).
    unfold wfEngine. rewrite Hn, Hid. split; [exact Hwf | lia].
Qed.

Lemma run_wf (es : list Event) (s : Engine) :
  wfEngine s -> wfEngine (run es s) /\ nextNoteId s <= nextNoteId (run es s).
Proof.
  revert s. induction es as [| e es IH]; intros s Hwf; simpl.
  - split; [exact Hwf | lia].
  - destruct (handleEvent_wf e s Hwf) as [Hwf1 Hle1].
    destruct (IH _ Hwf1) as [Hwf2 Hle2]. split; [exact Hwf2 | lia].
Qed.

Lemma noteSteps_id (k : nat) (n n' : Note) : noteSteps k n n' -> note_id n' = note_id n.
Proof.
  revert n. induction k as [| k IH]; simpl; intros n.
  - now intros ->.
  - intros (n1 & Hst & Hk). rewrite (IH _ Hk). now apply noteStep_id.
Qed.

(** Over a run, a note whose id was handed out before the run descends
    from a note of the starting state by one judge iteration per frame. *)
Lemma run_ancestor (es : list Event) (s : Engine) (n' : Note) :
  wfEngine s ->
  In n' (notesRef (run es s)) -> note_id n' < nextNoteId s ->
  exists n, In n (notesRef s) /\ noteSteps (countTicks es) n n'.
Proof.
  revert s. induction es as [| e es IH]; intros s Hwf Hin Hlt; simpl in Hin.
  - exists n'. simpl. auto.
  - destruct (handleEvent_wf e s Hwf) as [Hwf1 Hle1].
    destruct (IH _ Hwf1 Hin ltac:(lia)) as (n1 & Hn1 & Hk).
    pose proof (noteSteps_id _ _ _ Hk) as Hid.
    destruct e as [f | p | t].
    + destruct (stepEngine_ancestor f s n1 Hn1 ltac:(lia)) as (n & Hn & Hst).
      exists n. split; [exact Hn |]. simpl. now exists n1.
    + destruct (handleEvent_other (Message p) s ltac:(discriminate)) as (Hnotes & _).
      rewrite Hnotes in Hn1. exists n1. auto.
    + destruct (handleEvent_other (Start t) s ltac:(discriminate)) as (Hnotes & _).
      rewrite Hnotes in Hn1. exists n1. auto.
Qed.

Lemma wfEngine_unique_id (s : Engine) (n m : Note) :
  wfEngine s -> In n (notesRef s) -> In m (notesRef s) ->
  note_id n = note_id m -> n = m.
Proof.
  intros (Hnd & _ & _). induction (notesRef s) as [| a l IH]; simpl; [tauto |].
  simpl in Hnd. apply NoDup_cons in Hnd. destruct Hnd as [Hnotin Hnd].
  assert (Hno : forall b, In b l -> note_id b <> note_id a).
  { intros b Hb Heq. apply Hnotin. rewrite <- Heq.
    apply list_elem_of_In, in_map. exact Hb. }
  intros [-> | Hn] [-> | Hm] Heq; auto.
  - exfalso. now apply (Hno m Hm).
  - exfalso. now apply (Hno n Hn).
Qed.

(** A resolved note is a fixed point of the judge. *)
Lemma noteSteps_not_pending (k : nat) (n n' : Note) :
  isPending n = false -> noteSteps k n n' -> n' = n.
Proof.
  revert n. induction k as [| k IH]; simpl; intros n Hp.
  - auto.
  - intros (n1 & (d & dir & fr & HZ & sc & Hst) & Hk).
    rewrite judgeNote_not_pending in Hst by exact Hp. simpl in Hst. subst n1.
    now apply IH.
Qed.

(** A note still pending after [k] iterations was pending all along and
    has moved by [k] times [NOTE_SPEED]. *)
Lemma noteSteps_pending (k : nat) (n n' : Note) :
  noteSteps k n n' -> isPending n' = true ->
  isPending n = true /\ note_x n' = note_x n + NOTE_SPEED * Z.of_nat k.
Proof.
  revert n. induction k as [| k IH]; simpl noteSteps; intros n.
  - intros -> Hp. split; [exact Hp | lia].
  - intros (n1 & (d & dir & fr & HZ & sc & Hst) & Hk) Hp.
    destruct (IH _ Hk Hp) as [Hp1 Hx].
    destruct (isPending n) eqn:Hpn.
    + split; [reflexivity |].
      destruct (judgeNote_pending d dir fr HZ n sc Hpn)
        as [(_ & _ & Hn & _) | [(_ & _ & Hn & _) | (_ & _ & Hn & _)]];
        try (apply (f_equal fst) in Hn; simpl in Hn);
        rewrite <- Hst in Hn; rewrite Hn in Hp1, Hx; try discriminate.
      simpl in Hx. lia.
    + rewrite judgeNote_not_pending in Hst by exact Hpn. simpl in Hst.
      subst n1. congruence.
Qed.

(** Resolved notes take no part in the loop: the score and the calls are
    those of the pending notes alone. *)
Lemma judgeNotes_pending_only (didStrum : bool) (strumDir : StrumDir)
    (frets : list (option Z)) (HZ : Z) (notes : list Note) (sc : Score) :
  snd (fst (judgeNotes didStrum strumDir frets HZ notes sc))
  = snd (fst (judgeNotes didStrum strumDir frets HZ (List.filter isPending notes) sc))
  /\ snd (judgeNotes didStrum strumDir frets HZ notes sc)
  = snd (judgeNotes didStrum strumDir frets HZ (List.filter isPending notes) sc).
Proof.
  induction notes as [| n rest IH]; simpl; [auto |].
  destruct IH as [IHs IHe].
  destruct (judgeNotes didStrum strumDir frets HZ rest sc) as [[rest' sc1] ev1].
  simpl in IHs, IHe.
  destruct (isPending n) eqn:Hp; simpl.
  - destruct (judgeNotes didStrum strumDir frets HZ (List.filter isPending rest) sc)
      as [[rest'' sc1'] ev1'].
    simpl in IHs, IHe. subst sc1' ev1'.
    destruct (judgeNote didStrum strumDir frets HZ n sc1) as [[n' sc2] ev2].
    simpl. auto.
  - rewrite judgeNote_not_pending by exact Hp. simpl.
    rewrite app_nil_r. auto.
Qed.

Lemma wfEngine_init : wfEngine initEngine.
Proof. repeat split; simpl; constructor. Qed.

(** C7.  From a well-formed state, over any session of frames, socket
    messages and presses of the start button: no note is ever
    flagged both hit and missed (the state stays well formed); a note that
    is resolved (hit or missed) is returned unchanged by the judge, with the
    score untouched and no call made, under any strum; wherever a note with
    its id is still present later, it is that same note; and the score and
    the calls of a frame are those of the pending notes alone. *)
Theorem C7_note_resolved_once (es : list Event) (s : Engine) (n : Note) :
  wfEngine s -> In n (notesRef s) ->
  wfEngine (run es s)
  /\ Forall (fun m => hit m && missed m = false) (notesRef (run es s))
  /\ (isPending n = false ->
      (forall didStrum strumDir frets HZ sc,
          judgeNote didStrum strumDir frets HZ n sc = (n, sc, []))
      /\ (forall n', In n' (notesRef (run es s)) -> note_id n' = note_id n -> n' = n))
  /\ (forall didStrum strumDir frets HZ sc,
        snd (fst (judgeNotes didStrum strumDir frets HZ (notesRef s) sc))
        = snd (fst (judgeNotes didStrum strumDir frets HZ
                      (List.filter isPending (notesRef s)) sc))
        /\ snd (judgeNotes didStrum strumDir frets HZ (notesRef s) sc)
        = snd (judgeNotes didStrum strumDir frets HZ
                 (List.filter isPending (notesRef s)) sc)).
Proof.
  intros Hwf Hin.
  destruct (run_wf es s Hwf) as [Hwf' _].
  split; [exact Hwf' |]. split; [apply Hwf' |]. split.
  - intros Hp. split.
    + intros. now apply judgeNote_not_pending.
    + intros n' Hin' Hid.
      assert (Hlt : note_id n' < nextNoteId s).
      { rewrite Hid. destruct Hwf as (_ & Hlt & _).
        rewrite List.Forall_forall in Hlt. now apply Hlt. }
      destruct (run_ancestor es s n' Hwf Hin' Hlt) as (m & Hm & Hk).
      assert (m = n) as ->.
      { apply (wfEngine_unique_id s); auto.
        rewrite <- Hid. symmetry. now apply (noteSteps_id (countTicks es)). }
      now apply (noteSteps_not_pending (countTicks es)).
  - intros. apply judgeNotes_pending_only.
Qed.

Lemma C7_note_resolved_once_witness :
  In missedNote (notesRef missedEngine) /\ isPending missedNote = false /\
  forall n', In n' (notesRef (run [Tick (quietFrame 9100)] missedEngine)) ->
             note_id n' = note_id missedNote -> n' = missedNote.
Proof.
  assert (Hin : In missedNote (notesRef missedEngine)) by (vm_compute; left; reflexivity).
  assert (Hwf : wfEngine missedEngine) by apply run_wf, wfEngine_init.
  split; [exact Hin |]. split; [reflexivity |].
  apply (C7_note_resolved_once [Tick (quietFrame 9100)] missedEngine missedNote Hwf Hin).
  reflexivity.
Defined.

(** C2, as the code has it.  Every frame moves every pending note by the
    fixed [NOTE_SPEED], whatever the clock says: a note that is still
    pending after a session has advanced by [NOTE_SPEED] times the number
    of frames in it. *)
Theorem C2_fixed_advance_per_frame (es : list Event) (s : Engine) (n n' : Note) :
  wfEngine s -> In n (notesRef s) ->
  In n' (notesRef (run es s)) -> note_id n' = note_id n ->
  isPending n' = true ->
  note_x n' = note_x n + NOTE_SPEED * Z.of_nat (countTicks es).
Proof.
  intros Hwf Hin Hin' Hid Hp.
  assert (Hlt : note_id n' < nextNoteId s).
  { rewrite Hid. destruct Hwf as (_ & Hlt & _).
    rewrite List.Forall_forall in Hlt. now apply Hlt. }
  destruct (run_ancestor es s n' Hwf Hin' Hlt) as (m & Hm & Hk).
  assert (m = n) as ->.
  { apply (wfEngine_unique_id s); auto.
    rewrite <- Hid. symmetry. now apply (noteSteps_id (countTicks es)). }
  now apply noteSteps_pending.
Qed.

Lemma C2_fixed_advance_per_frame_witness :
  In (mkNote 0 (-84) "C" false false) (notesRef oneNoteEngine) /\
  In (mkNote 0 (-52) "C" false false) (notesRef (run (ticks ticksA) oneNoteEngine)) /\
  -52 = -84 + NOTE_SPEED * Z.of_nat (countTicks (ticks ticksA)).
Proof.
  assert (Hin : In (mkNote 0 (-84) "C" false false) (notesRef oneNoteEngine))
    by (vm_compute; left; reflexivity).
  assert (Hin' : In (mkNote 0 (-52) "C" false false) (notesRef (run (ticks ticksA) oneNoteEngine)))
    by (vm_compute; left; reflexivity).
  assert (Hwf : wfEngine oneNoteEngine) by apply run_wf, wfEngine_init.
  split; [exact Hin |]. split; [exact Hin' |].
  exact (C2_fixed_advance_per_frame (ticks ticksA) oneNoteEngine _ _ Hwf Hin Hin'
           eq_refl eq_refl).
Defined.

(** C2, refuted as stated.  From the same state, where the only note is at
    -84, [ticksA] and [ticksB] both end at the time 2200, one second after
    the state was reached at 1200; the note advances by 32 over the two
    frames of the first and by 16 over the single frame of the second. *)
Lemma C2_advance_depends_on_frame_count :
  map note_x (notesRef oneNoteEngine) = [-84] /\
  map now ticksA = [1700; 2200] /\ map now ticksB = [2200] /\
  map note_x (notesRef (run (ticks ticksA) oneNoteEngine)) = [-52] /\
  map note_x (notesRef (run (ticks ticksB) oneNoteEngine)) = [-68].
Proof. vm_compute. repeat split; reflexivity. Qed.

(** ** The strum detector *)

Lemma afterSpawn_detector (f : Frame) (s : Engine) :
  lastYRef (afterSpawn f s) = lastYRef s
  /\ lastStrumTimeRef (afterSpawn f s) = lastStrumTimeRef s.
Proof.
  unfold afterSpawn, spawnNote.
  destruct (isAudioStartedRef s); [| auto].
  destruct (1100 <? spawnNow f - lastNoteSpawnTime s); simpl; auto.
Qed.

(** [gameLoop] strums when its detector block does, and leaves the detector
    refs as that block set them. *)
Lemma gameLoop_detector (f : Frame) (s : Engine) :
  snd (fst (gameLoop f s)) = snd (fst (detectStrum f (afterSpawn f s)))
  /\ lastYRef (stepEngine f s) = lastYRef (fst (fst (detectStrum f (afterSpawn f s))))
  /\ lastStrumTimeRef (stepEngine f s)
     = lastStrumTimeRef (fst (fst (detectStrum f (afterSpawn f s)))).
Proof.
  unfold stepEngine, gameLoop.
  destruct (detectStrum f (afterSpawn f s)) as [[s2 d] dir].
  destruct (judgeNotes d dir (fretStatesRef s2) (HIT_ZONE_X (dims_w f))
              (notesRef s2) (score s2)) as [[notes sc] ev].
  simpl. auto.
Qed.

Lemma crossed_spec (mid lastY y : Q) :
  crossed mid lastY y = true <->
  ((lastY < mid /\ mid <= y) \/ (mid < lastY /\ y <= mid))%Q.
Proof.
  unfold crossed.
  rewrite orb_true_iff, !andb_true_iff, !Qltb_lt, !Qleb_le. tauto.
Qed.

Lemma strumFires_spec (f : Frame) (s : Engine) (lastY y : Q) :
  strumFires f s lastY y = true <->
  ((lastY < STRUM_MID_Y (dims_h f) /\ STRUM_MID_Y (dims_h f) <= y)
   \/ (STRUM_MID_Y (dims_h f) < lastY /\ y <= STRUM_MID_Y (dims_h f)))%Q
  /\ (STRUM_VELOCITY_THRESHOLD < Qabs (y - lastY))%Q
  /\ 150 < now f - lastStrumTimeRef s.
Proof.
  unfold strumFires.
  rewrite !andb_true_iff, crossed_spec, Qltb_lt, Z.ltb_lt. tauto.
Qed.

(** When the detector block strums, and what it does to [lastStrumTimeRef]. *)
Lemma detectStrum_spec (f : Frame) (s : Engine) :
  (snd (fst (detectStrum f s)) = true <->
   exists x y lastY,
     extractPosition f = Some (x, y) /\ inStrumZone f x y = true /\
     lastYRef s = Some lastY /\ strumFires f s lastY y = true)
  /\ lastStrumTimeRef (fst (fst (detectStrum f s)))
     = (if snd (fst (detectStrum f s)) then now f else lastStrumTimeRef s).
Proof.
  unfold detectStrum.
  destruct (extractPosition f) as [[x y] |].
  2:{ simpl. split; [| reflexivity]. split; [discriminate |].
      intros (? & ? & ? & ? & _). discriminate. }
  destruct (inStrumZone f x y) eqn:Hz.
  2:{ simpl. split; [| reflexivity]. split; [discriminate |].
      intros (x0 & y0 & l0 & He & Hz0 & _). injection He as <- <-. congruence. }
  destruct (lastYRef s) as [lastY |].
  2:{ simpl. split; [| reflexivity]. split; [discriminate |].
      intros (? & ? & ? & _ & _ & ? & _). discriminate. }
  destruct (strumFires f s lastY y) eqn:Hf; simpl; (split; [| reflexivity]).
  - split; [| reflexivity]. intros _. exists x, y, lastY. auto.
  - split; [discriminate |].
    intros (x0 & y0 & l0 & He & _ & Hl & Hf0).
    injection He as <- <-. injection Hl as <-. congruence.
Qed.

(** Strum times are more than 150 ms after the last recorded strum and
    more than 150 ms apart. *)
Lemma strumTimes_spaced (es : list Event) (s : Engine) :
  Forall (fun t => 150 < t - lastStrumTimeRef s) (strumTimes es s)
  /\ StronglySorted (fun a b => 150 < b - a) (strumTimes es s).
Proof.
  revert s. induction es as [| e es IH]; intros s; simpl.
  - split; constructor.
  - destruct (IH (handleEvent e s)) as [IHall IHsorted].
    destruct e as [f | p | t].
    2:{ destruct (handleEvent_other (Message p) s ltac:(discriminate))
          as (_ & _ & Hl & Hs).
        rewrite Hs. rewrite Hl in IHall. simpl. split; assumption. }
    2:{ destruct (handleEvent_other (Start t) s ltac:(discriminate))
          as (_ & _ & Hl & Hs).
        rewrite Hs. rewrite Hl in IHall. simpl. split; assumption. }
    destruct (gameLoop_detector f s) as (Hd & _ & Ht).
    destruct (detectStrum_spec f (afterSpawn f s)) as [Hiff Hlast].
    destruct (afterSpawn_detector f s) as [_ Hsame].
    rewrite <- Hd, <- Ht, Hsame in Hlast.
    simpl handleEvent in IHall, IHsorted. simpl.
    destruct (snd (fst (gameLoop f s))) eqn:Hfire; simpl.
    + assert (Hgap : 150 < now f - lastStrumTimeRef s).
      { destruct Hiff as [Hiff _].
        destruct (Hiff (eq_sym Hd)) as (x & y & l & _ & _ & _ & Hf).
        apply strumFires_spec in Hf. rewrite Hsame in Hf. tauto. }
      rewrite Hlast in IHall. split.
      * constructor; [exact Hgap |].
        eapply Forall_impl; [exact IHall |]. simpl. intros; lia.
      * constructor; [exact IHsorted | exact IHall].
    + rewrite Hlast in IHall. split; assumption.
Qed.

(** In a list whose entries are more than 150 apart, a window of length 150
    holds at most one entry. *)
Lemma spaced_window (ts : list Z) (t0 : Z) :
  StronglySorted (fun a b => 150 < b - a) ts ->
  (length (List.filter (inWindow t0) ts) <= 1)%nat.
Proof.
  induction 1 as [| a l Hs IH Hall]; simpl; [lia |].
  unfold inWindow at 1. destruct ((t0 <=? a) && (a <=? t0 + 150)) eqn:Ha; [| exact IH].
  apply andb_true_iff in Ha. destruct Ha as [Ha1 Ha2].
  apply Z.leb_le in Ha1, Ha2.
  replace (List.filter (inWindow t0) l) with (@nil Z);
    [simpl; lia |].
  symmetry. clear IH Hs. induction l as [| b l IHl]; simpl; [reflexivity |].
  inversion Hall as [| ? ? Hb Hall']; subst.
  unfold inWindow at 1. replace ((t0 <=? b) && (b <=? t0 + 150)) with false; [now apply IHl |].
  symmetry. apply andb_false_iff. right. apply Z.leb_gt. lia.
Qed.

(** C9.  A frame emits a strum exactly when the selected hand is in the
    strum zone, a previous in-zone sample is held, the two samples lie
    across the midline, the speed exceeds [STRUM_VELOCITY_THRESHOLD], and
    more than 150 ms have passed since the last emission; on emission
    [lastStrumTimeRef] becomes the frame's time, and otherwise it is kept.
    Hence a candidate no more than 150 ms after the last emission is
    dropped, the emissions of any run are more than 150 ms apart, and any
    window of 150 ms holds at most one of them. *)
Theorem C9_debounced_strums (es : list Event) (f : Frame) (s : Engine) :
  (snd (fst (gameLoop f s)) = true <->
   exists x y lastY,
     extractPosition f = Some (x, y) /\ inStrumZone f x y = true /\
     lastYRef s = Some lastY /\
     ((lastY < STRUM_MID_Y (dims_h f) /\ STRUM_MID_Y (dims_h f) <= y)
      \/ (STRUM_MID_Y (dims_h f) < lastY /\ y <= STRUM_MID_Y (dims_h f)))%Q /\
     (STRUM_VELOCITY_THRESHOLD < Qabs (y - lastY))%Q /\
     150 < now f - lastStrumTimeRef s)
  /\ lastStrumTimeRef (stepEngine f s)
     = (if snd (fst (gameLoop f s)) then now f else lastStrumTimeRef s)
  /\ (now f - lastStrumTimeRef s <= 150 -> snd (fst (gameLoop f s)) = false)
  /\ StronglySorted (fun a b => 150 < b - a) (strumTimes es s)
  /\ (forall t0,
        (length (List.filter (inWindow t0)
                             (strumTimes es s)) <= 1)%nat).
Proof.
  destruct (gameLoop_detector f s) as (Hd & _ & Ht).
  destruct (detectStrum_spec f (afterSpawn f s)) as [Hiff Hlast].
  destruct (afterSpawn_detector f s) as [HsameY Hsame].
  rewrite <- Hd, <- Ht, Hsame in Hlast. rewrite <- Hd, HsameY in Hiff.
  assert (Hchar :
    snd (fst (gameLoop f s)) = true <->
    exists x y lastY,
      extractPosition f = Some (x, y) /\ inStrumZone f x y = true /\
      lastYRef s = Some lastY /\
      ((lastY < STRUM_MID_Y (dims_h f) /\ STRUM_MID_Y (dims_h f) <= y)
       \/ (STRUM_MID_Y (dims_h f) < lastY /\ y <= STRUM_MID_Y (dims_h f)))%Q /\
      (STRUM_VELOCITY_THRESHOLD < Qabs (y - lastY))%Q /\
      150 < now f - lastStrumTimeRef s).
  { rewrite Hiff. split; intros (x & y & l & He & Hz & Hl & H); exists x, y, l.
    - apply strumFires_spec in H. rewrite Hsame in H. tauto.
    - repeat split; try tauto. apply strumFires_spec. rewrite Hsame. tauto. }
  split; [exact Hchar |]. split; [exact Hlast |]. split.
  - intros Hle. destruct (snd (fst (gameLoop f s))); [| reflexivity].
    destruct Hchar as [Hchar _].
    destruct (Hchar eq_refl) as (? & ? & ? & _ & _ & _ & _ & _ & Hgt). lia.
  - destruct (strumTimes_spaced es s) as [_ Hs].
    split; [exact Hs |]. intros t0. now apply spaced_window.
Qed.

(** ** Frames without a usable position *)

(** No hand passes the gate: the detector block changes nothing, so the
    sample held in [lastYRef] stays. *)
Lemma detectStrum_no_hand (f : Frame) (s : Engine) :
  extractPosition f = None -> detectStrum f s = (s, false, down).
Proof. intros H. unfold detectStrum. now rewrite H. Qed.

(** The selected hand is outside the strum zone: no strum, and the held
    sample is dropped. *)
Lemma detectStrum_out_of_zone (f : Frame) (s : Engine) (x y : Q) :
  extractPosition f = Some (x, y) -> inStrumZone f x y = false ->
  snd (fst (detectStrum f s)) = false
  /\ lastYRef (fst (fst (detectStrum f s))) = None.
Proof. intros H Hz. unfold detectStrum. rewrite H, Hz. simpl. auto. Qed.

(** C5, on the code.  In [gapSession] no hand is detected on the middle
    frame; that frame emits nothing but keeps the height 500 sampled before
    the gap, and the next in-zone frame pairs with it and strums.  In
    [outOfZoneSession], where the hand is seen outside the zone instead,
    the sample is dropped and the last frame does not strum. *)
Theorem C5_no_hand_keeps_stale_sample :
  extractPosition (quietFrame 1200) = None
  /\ lastYRef (run (ticks (firstn 1 gapSession)) initEngine)
     = Some (avgTipY (handFrame 1000 500) (handAt 400 500 500))
  /\ lastYRef (run (ticks (firstn 2 gapSession)) initEngine)
     = lastYRef (run (ticks (firstn 1 gapSession)) initEngine)
  /\ strumTimes (ticks gapSession) initEngine = [1400]
  /\ lastYRef (run (ticks (firstn 2 outOfZoneSession)) initEngine) = None
  /\ strumTimes (ticks outOfZoneSession) initEngine = [].
Proof. vm_compute. repeat split; reflexivity. Qed.

(** ** The position extractor *)

(** What the reduction keeps: a hand of the least wrist abscissa, and among
    those the last one. *)
Lemma fold_pickHand (t : list Hand) (acc : Hand) :
  let r := fold_left pickHand t acc in
  ((r = acc /\ forall h, In h t -> (lm0 acc 0 < lm0 h 0)%Q)
   \/ (exists t1 t2, t = t1 ++ r :: t2 /\ forall h, In h t2 -> (lm0 r 0 < lm0 h 0)%Q))
  /\ (lm0 r 0 <= lm0 acc 0)%Q
  /\ (forall h, In h t -> (lm0 r 0 <= lm0 h 0)%Q).
Proof.
  revert acc. induction t as [| c t IH]; intros acc; simpl.
  - split; [left; split; [reflexivity | intros h []] |].
    split; [apply Qle_refl | intros h []].
  - unfold pickHand at 2 4 6 8 10.
    destruct (Qltb (lm0 acc 0) (lm0 c 0)) eqn:Hlt.
    + apply Qltb_lt in Hlt.
      destruct (IH acc) as ([[Hr Hall] | (t1 & t2 & Ht & Hall)] & Hle & Hmin).
      * split; [left; split; [exact Hr |] |].
        { intros h [<- | Hh]; [exact Hlt | now apply Hall]. }
        split; [exact Hle |].
        intros h [<- | Hh]; [| now apply Hmin].
        apply Qle_trans with (lm0 acc 0); [exact Hle | now apply Qlt_le_weak].
      * split; [right; exists (c :: t1), t2; split; [simpl; congruence | exact Hall] |].
        split; [exact Hle |].
        intros h [<- | Hh]; [| now apply Hmin].
        apply Qle_trans with (lm0 acc 0); [exact Hle | now apply Qlt_le_weak].
    + apply Qltb_ge in Hlt.
      destruct (IH c) as ([[Hr Hall] | (t1 & t2 & Ht & Hall)] & Hle & Hmin).
      * split; [right; exists [], t; split; [simpl; congruence |] |].
        { rewrite Hr. exact Hall. }
        split; [now apply Qle_trans with (lm0 c 0) |].
        intros h [<- | Hh]; [exact Hle | now apply Hmin].
      * split; [right; exists (c :: t1), t2; split; [simpl; congruence | exact Hall] |].
        split; [now apply Qle_trans with (lm0 c 0) |].
        intros h [<- | Hh]; [exact Hle | now apply Hmin].
Qed.

Lemma reduceHands_spec (l : list Hand) :
  l <> [] ->
  exists hand before after,
    reduceHands l = Some hand /\ l = before ++ hand :: after
    /\ (forall h, In h l -> (lm0 hand 0 <= lm0 h 0)%Q)
    /\ (forall h, In h after -> (lm0 hand 0 < lm0 h 0)%Q).
Proof.
  destruct l as [| h0 t]; [congruence |]. intros _. simpl.
  destruct (fold_pickHand t h0) as ([[Hr Hall] | (t1 & t2 & Ht & Hall)] & Hle & Hmin).
  - exists (fold_left pickHand t h0), [], t.
    split; [reflexivity |]. split; [simpl; congruence |]. split.
    + intros h [<- | Hh]; [exact Hle | now apply Hmin].
    + rewrite Hr. exact Hall.
  - exists (fold_left pickHand t h0), (h0 :: t1), t2.
    split; [reflexivity |]. split; [simpl; congruence |]. split.
    + intros h [<- | Hh]; [exact Hle | now apply Hmin].
    + exact Hall.
Qed.

(** The display is mirrored: a smaller wrist abscissa in the camera frame
    is a larger one on the display. *)
Lemma displayHandX_antitone (f : Frame) (h h' : Hand) :
  (0 <= hScale f)%Q -> (lm0 h 0 <= lm0 h' 0)%Q ->
  (displayHandX f h' <= displayHandX f h)%Q.
Proof.
  intros Hs Hle. unfold displayHandX.
  pose proof (Qmult_le_compat_r _ _ _ Hle Hs) as Hm.
  unfold Qminus. apply Qplus_le_r. now apply Qopp_le_compat.
Qed.

(** C6, as the code has it.  When at least one hand passes the wrist-height
    gate, the extractor selects the gate-passing hand whose wrist has the
    least camera-frame abscissa, and among several such hands the one
    detected last; on the mirrored display this is the hand of the greatest
    horizontal coordinate.  The position it reports is the mirrored display
    abscissa of that hand's wrist together with the average display height
    of its fingertip landmarks 8, 12 and 16. *)
Theorem C6_selected_hand (f : Frame) :
  validHands f <> [] ->
  exists hand before after,
    selectedHand f = Some hand
    /\ validHands f = before ++ hand :: after
    /\ In hand (predictions f) /\ passesGate f hand = true
    /\ (forall h, In h (validHands f) -> (lm0 hand 0 <= lm0 h 0)%Q)
    /\ (forall h, In h after -> (lm0 hand 0 < lm0 h 0)%Q)
    /\ ((0 <= hScale f)%Q ->
        forall h, In h (validHands f) -> (displayHandX f h <= displayHandX f hand)%Q)
    /\ extractPosition f
       = Some ((inject_Z (dims_w f) - lm0 hand 0 * hScale f)%Q,
               ((lm1 hand 8 + lm1 hand 12 + lm1 hand 16) / 3 * vScale f)%Q).
Proof.
  intros Hne.
  destruct (reduceHands_spec (validHands f) Hne)
    as (hand & before & after & Hsel & Hsplit & Hmin & Htie).
  exists hand, before, after.
  assert (Hin : In hand (validHands f)).
  { rewrite Hsplit. apply in_or_app. right. now left. }
  unfold validHands in Hin. apply List.filter_In in Hin. destruct Hin as [Hin Hgate].
  split; [exact Hsel |]. split; [exact Hsplit |].
  split; [exact Hin |]. split; [exact Hgate |].
  split; [exact Hmin |]. split; [exact Htie |]. split.
  - intros Hs h Hh. apply displayHandX_antitone; auto.
  - unfold extractPosition, selectedHand. rewrite Hsel. reflexivity.
Qed.

Lemma C6_selected_hand_witness :
  validHands twoHandsFrame <> []
  /\ exists hand before after,
       selectedHand twoHandsFrame = Some hand
       /\ validHands twoHandsFrame = before ++ hand :: after
       /\ forall h, In h after -> (lm0 hand 0 < lm0 h 0)%Q.
Proof.
  assert (Hne : validHands twoHandsFrame <> []) by (vm_compute; discriminate).
  split; [exact Hne |].
  destruct (C6_selected_hand twoHandsFrame Hne)
    as (hand & before & after & Hsel & Hsplit & _ & _ & _ & Htie & _).
  exists hand, before, after. auto.
Defined.

(** C6, refuted as stated.  Of the two gate-passing hands of
    [twoHandsFrame] the extractor selects [handNear], whose display
    abscissa 1180 is the greater one ([handFar] is at 780, further left on
    the display); the abscissa it reports, 1180, is that of the wrist, while
    the fingertips of [handNear] are displayed at 1120; and of the two hands
    of [tiedHandsFrame], which share their wrist abscissa, it selects the
    one detected second. *)
Lemma C6_selects_greatest_display_abscissa :
  validHands twoHandsFrame = [handNear; handFar]
  /\ selectedHand twoHandsFrame = Some handNear
  /\ (displayHandX twoHandsFrame handFar < displayHandX twoHandsFrame handNear)%Q
  /\ (displayHandX twoHandsFrame handNear == 1180)%Q
  /\ (inject_Z (dims_w twoHandsFrame)
      - (lm0 handNear 8 + lm0 handNear 12 + lm0 handNear 16) / 3 * hScale twoHandsFrame
      == 1120)%Q
  /\ (exists y, extractPosition twoHandsFrame = Some (displayHandX twoHandsFrame handNear, y))
  /\ validHands tiedHandsFrame = [handNear; handTied]
  /\ (lm0 handNear 0 == lm0 handTied 0)%Q
  /\ selectedHand tiedHandsFrame = Some handTied.
Proof.
  repeat split; try (vm_compute; reflexivity).
  eexists. vm_compute. reflexivity.
Qed.

(** ** The fret store *)

Lemma fingeringWrite_valid (e : Fingering) :
  validString e = true ->
  fingeringWrite e = Some (Z.to_nat (6 - fg_string e), fg_fret e).
Proof.
  unfold validString, fingeringWrite. intros H.
  apply andb_true_iff in H. destruct H as [H1 H2]. apply Z.leb_le in H1, H2.
  replace ((0 <=? 6 - fg_string e) && (6 - fg_string e <? 6)) with true; [reflexivity |].
  symmetry. apply andb_true_iff. split; [apply Z.leb_le | apply Z.ltb_lt]; lia.
Qed.

Lemma fingeringWrite_invalid (e : Fingering) :
  validString e = false -> fingeringWrite e = None.
Proof.
  unfold validString, fingeringWrite. intros H.
  apply andb_false_iff in H.
  replace ((0 <=? 6 - fg_string e) && (6 - fg_string e <? 6)) with false; [reflexivity |].
  symmetry. apply andb_false_iff.
  destruct H as [H | H]; apply Z.leb_gt in H;
    [right; apply Z.ltb_ge | left; apply Z.leb_gt]; lia.
Qed.

Lemma applyFingering_length (a : list (option Z)) (e : Fingering) :
  length (applyFingering a e) = length a.
Proof.
  unfold applyFingering. destruct (fingeringWrite e) as [[i v] |]; [| reflexivity].
  apply length_insert.
Qed.

(** ** The socket handler on JavaScript values *)


Lemma isWhole_inject_Z (q : Q) (z : Z) : (q == inject_Z z)%Q -> isWhole q = true /\ Qfloor q = z.
Proof.
  intros H. unfold isWhole.
  assert (Hf : Qfloor q = z) by (rewrite H; apply Qfloor_Z).
  split; [| exact Hf]. rewrite Hf. apply Qeq_bool_iff. now symmetry.
Qed.

Lemma isWhole_spec (q : Q) : isWhole q = true -> (q == inject_Z (Qfloor q))%Q.
Proof. unfold isWhole. intros H. apply Qeq_bool_iff in H. now symmetry. Qed.

Lemma getProp_total (v : Value) (a b : string) (x : Value) :
  getProp v a = Some x -> exists y, getProp v b = Some y.
Proof. destruct v; simpl; intros H; try discriminate; eauto. Qed.

Section SocketFacts.
Variable T : Value -> option Num.

Lemma stringNumber_callback (a : FretArray) (e : Value) (n : Num) :
  stringNumber T e = Some n ->
  fingeringCallback T a e
  = Some (if geZero (sixMinus n) && ltSix (sixMinus n)
          then assign a (sixMinus n) (entryFret e) else a).
Proof.
  unfold stringNumber, fingeringCallback, entryFret. intros H.
  destruct (getProp e "string") as [sv |] eqn:Hs; [| discriminate].
  destruct (getProp_total e "string" "fret" sv Hs) as [fv Hf].
  rewrite Hf, H. now destruct (geZero (sixMinus n) && ltSix (sixMinus n)).
Qed.


(** The guard, on a finite number: [0 <= 6 - q < 6] says [0 < q <= 6]. *)
Lemma guard_Fin (q : Q) :
  geZero (sixMinus (Fin q)) && ltSix (sixMinus (Fin q)) = Qltb 0 q && Qleb q 6.
Proof.
  simpl. 
  destruct (Qltb 0 q) eqn:H1; destruct (Qleb q 6) eqn:H2; simpl.
  - apply andb_true_iff. split; [apply Qleb_le | apply Qltb_lt].
    + apply Qleb_le in H2. lra.
    + apply Qltb_lt in H1. lra.
  - apply andb_false_iff. left. apply not_true_iff_false. intros H.
    apply Qleb_le in H. apply not_true_iff_false in H2. apply H2. apply Qleb_le. lra.
  - apply andb_false_iff. right. apply Qltb_ge. apply Qltb_ge in H1. lra.
  - apply andb_false_iff. right. apply Qltb_ge. apply Qltb_ge in H1. lra.
Qed.

Lemma guard_not_Fin (n : Num) :
  (forall q, n <> Fin q) -> geZero (sixMinus n) && ltSix (sixMinus n) = false.
Proof. destruct n; simpl; intros H; try reflexivity. now destruct (H q). Qed.

Lemma callback_outOfRange (a : FretArray) (e : Value) :
  outOfRange T e = true -> fingeringCallback T a e = Some a.
Proof.
  unfold outOfRange. intros H.
  destruct (stringNumber T e) as [n |] eqn:Hn; [| discriminate].
  rewrite (stringNumber_callback a e n Hn).
  destruct n as [| | | q]; try reflexivity.
  rewrite guard_Fin.
  apply orb_true_iff in H. destruct H as [H | H].
  - apply Qleb_le in H. replace (Qltb 0 q) with false; [reflexivity |].
    symmetry. now apply Qltb_ge.
  - apply Qltb_lt in H. replace (Qleb q 6) with false; [now rewrite andb_false_r |].
    symmetry. apply not_true_iff_false. intros H'. apply Qleb_le in H'. lra.
Qed.

Lemma forString_number (k : Z) (e : Value) :
  forString T k e = true ->
  exists q, stringNumber T e = Some (Fin q) /\ (q == inject_Z k)%Q.
Proof.
  unfold forString. destruct (stringNumber T e) as [[| | | q] |]; try discriminate.
  intros H. exists q. split; [reflexivity | now apply Qeq_bool_iff].
Qed.

Lemma assign_slot (a : FretArray) (q : Q) (i : Z) (v : Value) :
  (q == inject_Z i)%Q -> 0 <= i < Z.of_nat (length (slots a)) -> i < 4294967295 ->
  assign a (Fin q) v = mkFretArray (<[Z.to_nat i := v]> (slots a)) (named a).
Proof.
  intros Hq Hi Hb. unfold assign.
  destruct (isWhole_inject_Z q i Hq) as [Hw Hf]. rewrite Hw, Hf.
  replace (0 <=? i) with true by (symmetry; apply Z.leb_le; lia).
  replace (i <? 4294967295) with true by (symmetry; apply Z.ltb_lt; lia).
  simpl. replace (Z.to_nat i <? length (slots a))%nat with true; [reflexivity |].
  symmetry. apply Nat.ltb_lt. lia.
Qed.

Lemma callback_forString (k : Z) (a : FretArray) (e : Value) :
  1 <= k <= 6 -> length (slots a) = 6%nat -> forString T k e = true ->
  fingeringCallback T a e
  = Some (mkFretArray (<[Z.to_nat (6 - k) := entryFret e]> (slots a)) (named a)).
Proof.
  intros Hk Hlen Hf. destruct (forString_number k e Hf) as (q & Hn & Hq).
  rewrite (stringNumber_callback a e _ Hn), guard_Fin.
  replace (Qltb 0 q) with true.
  2:{ symmetry. apply Qltb_lt. rewrite Hq. unfold Qlt, inject_Z; simpl. lia. }
  replace (Qleb q 6) with true.
  2:{ symmetry. apply Qleb_le. rewrite Hq. unfold Qle, inject_Z; simpl. lia. }
  simpl. f_equal. apply assign_slot; [| rewrite Hlen; lia | lia].
  rewrite Hq. unfold Qeq, Qminus, Qplus, Qopp, inject_Z; simpl. lia.
Qed.


Lemma isWhole_sixMinus (q : Q) : isWhole q = true -> isWhole (6 - q) = true.
Proof.
  intros H. apply isWhole_spec in H.
  apply (isWhole_inject_Z (6 - q) (6 - Qfloor q)).
  rewrite H at 1. unfold Qeq, Qminus, Qplus, Qopp, inject_Z; simpl. lia.
Qed.







End SocketFacts.




(** ** The typed model of the fret store against the handler *)

Section TypedAgrees.
Variable T : Value -> option Num.

Lemma stringNumber_entryValue (e : Fingering) :
  stringNumber T (entryValue e) = Some (Fin (inject_Z (fg_string e))).
Proof. reflexivity. Qed.

Lemma callback_entryValue (a : list (option Z)) (e : Fingering) :
  length a = 6%nat ->
  fingeringCallback T (fretArrayOf a) (entryValue e)
  = Some (fretArrayOf (applyFingering a e)).
Proof.
  intros Hlen. unfold applyFingering.
  destruct (validString e) eqn:Hv.
  - rewrite (fingeringWrite_valid e Hv).
    unfold validString in Hv. apply andb_true_iff in Hv.
    destruct Hv as [H1 H2]. apply Z.leb_le in H1, H2.
    rewrite (callback_forString T (fg_string e)).
    + unfold fretArrayOf. cbn [slots named]. f_equal. f_equal.
      symmetry. apply (list_fmap_insert slotValue).
    + lia.
    + unfold fretArrayOf. cbn [slots]. now rewrite length_map.
    + unfold forString. rewrite stringNumber_entryValue. apply Qeq_bool_iff. reflexivity.
  - rewrite (fingeringWrite_invalid e Hv).
    apply callback_outOfRange. unfold outOfRange. rewrite stringNumber_entryValue.
    unfold validString in Hv. apply andb_false_iff in Hv.
    apply orb_true_iff. destruct Hv as [Hv | Hv]; apply Z.leb_gt in Hv.
    + left. apply Qleb_le. unfold Qle, inject_Z; simpl. lia.
    + right. apply Qltb_lt. unfold Qlt, inject_Z; simpl. lia.
Qed.

Lemma forEachEntry_entryValue (es : list Fingering) (a : list (option Z)) :
  length a = 6%nat ->
  forEachEntry T (map entryValue es) (fretArrayOf a)
  = Some (fretArrayOf (fold_left applyFingering es a)).
Proof.
  revert a. induction es as [| e es IH]; intros a Hlen; [reflexivity |].
  cbn [map forEachEntry fold_left]. rewrite (callback_entryValue a e Hlen).
  apply IH. now rewrite applyFingering_length.
Qed.

(** On a message of the typed model the handler stores what
    [chordFretStates] and [chordOrC] compute. *)
Lemma ws_onmessage_typed (chord : option string) (fingering : option (list Fingering))
    (r : SocketRefs) :
  ws_onmessage T (Some (payloadValue chord fingering)) r
  = mkSocketRefs (fretArrayOf (chordFretStates fingering)) (Vstr (chordOrC chord)).
Proof.
  unfold ws_onmessage, handleData.
  assert (Hp : payloadOf (payloadValue chord fingering) = Some (payloadValue chord fingering)).
  { destruct chord, fingering; reflexivity. }
  assert (Ht : getProp (payloadValue chord fingering) "type" = Some (Vstr "chord_change")).
  { destruct chord, fingering; reflexivity. }
  rewrite Hp, Ht. change (isStr (Vstr "chord_change") "chord_change") with true.
  cbv iota. unfold chordChangeBranch.
  assert (Hc : getProp (payloadValue chord fingering) "chord"
               = Some (match chord with Some c => Vstr c | None => Vundefined end)).
  { destruct chord, fingering; reflexivity. }
  assert (Hf : getProp (payloadValue chord fingering) "fingering"
               = Some (match fingering with
                       | Some es => Varr (map entryValue es)
                       | None => Vundefined
                       end)).
  { destruct chord, fingering; reflexivity. }
  rewrite Hc, Hf.
  assert (Hfr : (if truthy (match fingering with
                            | Some es => Varr (map entryValue es)
                            | None => Vundefined
                            end)
                 then match (match fingering with
                             | Some es => Varr (map entryValue es)
                             | None => Vundefined
                             end) with
                      | Varr entries => forEachEntry T entries sixNulls
                      | _ => None
                      end
                 else Some sixNulls)
                = Some (fretArrayOf (chordFretStates fingering))).
  { destruct fingering as [es |]; [| reflexivity].
    cbn [truthy chordFretStates].
    apply (forEachEntry_entryValue es [None; None; None; None; None; None] eq_refl). }
  rewrite Hfr. f_equal. f_equal.
  destruct chord as [c |]; [| reflexivity].
  unfold chordOrC. cbn [truthy]. now destruct (String.eqb c "").
Qed.
End TypedAgrees.

(** ** The combo *)

Lemma judgeNote_hitScore (sc : Score) :
  snd (fst (judgeNote true down [] 1030 noteOnLine sc)) = hitScore sc.
Proof. reflexivity. Qed.

Lemma judgeNote_missScore (sc : Score) :
  snd (fst (judgeNote false down [] 1030 lateNote sc))
  = missScore sc.
Proof. reflexivity. Qed.

Lemma iter_hitScore (k : nat) :
  Nat.iter k hitScore score0
  = mkScore (1000 * Z.of_nat k) (Z.of_nat k) (Z.of_nat k) 0 0.
Proof.
  induction k as [| k IH]; [reflexivity |].
  rewrite Nat.iter_succ, IH. unfold hitScore. simpl. f_equal; lia.
Qed.

(** Two histories with the same hits and misses in a different order end
    in the same score state. *)
Lemma same_state_two_histories (k : nat) :
  missScore (missScore (Nat.iter (S (S k)) hitScore score0))
  = missScore (hitScore (missScore (Nat.iter (S k) hitScore score0))).
Proof.
  rewrite !iter_hitScore. unfold missScore, hitScore. simpl. f_equal; lia.
Qed.

(** C3, refuted as stated.  The score state of the engine has no component
    that behaves as a [maxCombo], that is, that becomes the maximum of its
    previous value and the combo on every hit and that a miss, which is to
    touch the combo and the miss count only, leaves alone: the state after
    [k + 2] hits and two misses equals the state after [k + 1] hits, a miss,
    a hit and a miss, while the greatest combo is [k + 2] in the first
    history and [k + 1] in the second. *)
Lemma C3_score_state_holds_no_maxCombo :
  ~ exists maxCombo : Score -> Z,
      (forall strumDir frets HZ n sc,
          isPending n = true ->
          Z.abs (note_x n + NOTE_SPEED - HZ) < HIT_WINDOW ->
          maxCombo (snd (fst (judgeNote true strumDir frets HZ n sc)))
          = Z.max (maxCombo sc)
                  (comboRef (snd (fst (judgeNote true strumDir frets HZ n sc)))))
      /\ (forall didStrum strumDir frets HZ n sc,
             isPending n = true ->
             HZ + HIT_WINDOW < note_x n + NOTE_SPEED ->
             maxCombo (snd (fst (judgeNote didStrum strumDir frets HZ n sc)))
             = maxCombo sc).
Proof.
  intros (mc & Hhit & Hmiss).
  assert (Hh : forall sc, mc (hitScore sc) = Z.max (mc sc) (comboRef sc + 1)).
  { intros sc.
    specialize (Hhit down [] 1030 noteOnLine sc eq_refl ltac:(vm_compute; reflexivity)).
    rewrite judgeNote_hitScore in Hhit. exact Hhit. }
  assert (Hm : forall sc, mc (missScore sc) = mc sc).
  { intros sc.
    specialize (Hmiss false down [] 1030 lateNote sc
                      eq_refl ltac:(vm_compute; reflexivity)).
    rewrite judgeNote_missScore in Hmiss. exact Hmiss. }
  assert (Hiter : forall k, mc (Nat.iter (S k) hitScore score0)
                            = Z.max (mc score0) (Z.of_nat (S k))).
  { induction k as [| k IH].
    - simpl Nat.iter. rewrite Hh. reflexivity.
    - rewrite Nat.iter_succ, Hh, IH, iter_hitScore. simpl comboRef. lia. }
  set (k := Z.to_nat (mc score0)).
  pose proof (same_state_two_histories k) as Heq.
  apply (f_equal mc) in Heq.
  rewrite !Hm, Hh, Hm, !Hiter, iter_hitScore in Heq. simpl comboRef in Heq.
  subst k. lia.
Qed.

(** C3, as the code has it.  The engine keeps no maximum combo.  A hit
    adds exactly one to the combo, so right after a hit the combo is the
    greater of its previous and its new value; a miss sets it to zero. *)
Theorem C3_hit_increments_combo (didStrum : bool) (strumDir : StrumDir)
    (frets : list (option Z)) (HZ : Z) (n : Note) (sc : Score) :
  isPending n = true ->
  let n' := fst (fst (judgeNote didStrum strumDir frets HZ n sc)) in
  let sc' := snd (fst (judgeNote didStrum strumDir frets HZ n sc)) in
  (hit n' = true ->
   comboRef sc' = comboRef sc + 1
   /\ comboRef sc' = Z.max (comboRef sc) (comboRef sc'))
  /\ (missed n' = true -> comboRef sc' = 0)
  /\ (isPending n' = true -> comboRef sc' = comboRef sc).
Proof.
  intros Hp n' sc'. subst n' sc'.
  destruct (judgeNote_pending didStrum strumDir frets HZ n sc Hp)
    as [(_ & _ & Hn & Hs) | [(_ & _ & Hn & Hs) | (_ & _ & Hn & _)]].
  - rewrite Hn, Hs. simpl. repeat split; try discriminate; intros; lia.
  - rewrite Hn, Hs. simpl. repeat split; try discriminate; intros; lia.
  - pose proof (f_equal fst Hn) as Hn1. pose proof (f_equal snd Hn) as Hn2.
    simpl in Hn1, Hn2. rewrite Hn1, Hn2. simpl.
    repeat split; try discriminate; intros; lia.
Qed.

Lemma C3_hit_increments_combo_witness :
  isPending noteOnLine = true
  /\ comboRef (snd (fst (judgeNote true down [] 1030 noteOnLine (mkScore 2000 2 2 0 0)))) = 3.
Proof.
  split; [reflexivity |].
  destruct (C3_hit_increments_combo true down [] 1030 noteOnLine
              (mkScore 2000 2 2 0 0) eq_refl) as [Hhit _].
  destruct (Hhit eq_refl) as [Hc _]. exact Hc.
Defined.

(** ** Leaving the session *)

(** C4, as the code has it.  [handleExit] only calls [onExit], which sets
    the role of the application to the lobby: however often it is invoked,
    no request is handed to the score-submission interface and no ref of
    the engine changes; after the first invocation a further one leaves the
    application as it is. *)
Theorem C4_exit_submits_nothing (k : nat) (a : App) (s : Engine) :
  snd (exitTimes k a s) = []
  /\ snd (fst (exitTimes k a s)) = s
  /\ fst (fst (exitTimes (S k) a s)) = mkApp LOBBY (roomId a)
  /\ handleExit App_handleExit (fst (fst (handleExit App_handleExit a s))) s
     = handleExit App_handleExit a s.
Proof.
  split; [| split; [| split]].
  - revert a s. induction k as [| k IH]; intros a s; simpl; [reflexivity |].
    specialize (IH (App_handleExit a) s).
    destruct (exitTimes k (App_handleExit a) s) as [[a2 s2] r2]. exact IH.
  - revert a s. induction k as [| k IH]; intros a s; simpl; [reflexivity |].
    specialize (IH (App_handleExit a) s).
    destruct (exitTimes k (App_handleExit a) s) as [[a2 s2] r2]. exact IH.
  - revert a s. induction k as [| k IH]; intros a s; [reflexivity |].
    specialize (IH (App_handleExit a) s).
    change (exitTimes (S (S k)) a s) with
      (let '(a2, s2, r2) := exitTimes (S k) (App_handleExit a) s in
       (a2, s2, @nil Request ++ r2)).
    destruct (exitTimes (S k) (App_handleExit a) s) as [[a2 s2] r2].
    simpl in *. exact IH.
  - reflexivity.
Qed.

(** C4, refuted as stated.  At the end of [slowSession], with a score of
    1500 on the counters, [handleExit] issues no request: the session
    summary is emitted zero times, not once. *)
Lemma C4_exit_emits_no_summary :
  score (run (Start 0 :: ticks slowSession) initEngine) = mkScore 1500 2 1 1 0
  /\ snd (handleExit App_handleExit (mkApp PC_PLAYER "TEST")
            (run (Start 0 :: ticks slowSession) initEngine)) = []
  /\ length (snd (handleExit App_handleExit (mkApp PC_PLAYER "TEST")
                    (run (Start 0 :: ticks slowSession) initEngine))) <> 1%nat.
Proof. vm_compute. repeat split; try reflexivity. discriminate. Qed.

(** * Further properties of the engine *)

(** ** One frame, unfolded *)

Lemma afterSpawn_refs (f : Frame) (s : Engine) :
  score (afterSpawn f s) = score s
  /\ fretStatesRef (afterSpawn f s) = fretStatesRef s
  /\ isAudioStartedRef (afterSpawn f s) = isAudioStartedRef s
  /\ isStrummingRef (afterSpawn f s) = isStrummingRef s
  /\ currentChordRef (afterSpawn f s) = currentChordRef s
  /\ gameStartTimeRef (afterSpawn f s) = gameStartTimeRef s.
Proof.
  unfold afterSpawn, spawnNote.
  destruct (isAudioStartedRef s) eqn:Ha; [| now rewrite Ha].
  destruct (1100 <? spawnNow f - lastNoteSpawnTime s); simpl; now rewrite ?Ha.
Qed.

Lemma detectStrum_other_refs (f : Frame) (s : Engine) :
  let s2 := fst (fst (detectStrum f s)) in
  isAudioStartedRef s2 = isAudioStartedRef s
  /\ lastNoteSpawnTime s2 = lastNoteSpawnTime s
  /\ currentChordRef s2 = currentChordRef s
  /\ gameStartTimeRef s2 = gameStartTimeRef s.
Proof.
  unfold detectStrum.
  repeat (match goal with
          | |- context [match ?c with _ => _ end] => destruct c
          end; simpl); auto.
Qed.

(** What a frame returns and leaves behind, in terms of the judge run on
    the notes and the score that [spawnNote] left. *)
Lemma gameLoop_unfold (f : Frame) (s : Engine) :
  let s1 := afterSpawn f s in
  let d := snd (fst (detectStrum f s1)) in
  let dir := snd (detectStrum f s1) in
  let j := judgeNotes d dir (fretStatesRef s) (HIT_ZONE_X (dims_w f))
                      (notesRef s1) (score s) in
  snd (fst (gameLoop f s)) = d
  /\ snd (gameLoop f s) = snd j
  /\ score (stepEngine f s) = snd (fst j)
  /\ notesRef (stepEngine f s) = List.filter (keepNote (dims_w f)) (fst (fst j))
  /\ nextNoteId (stepEngine f s) = nextNoteId s1
  /\ lastNoteSpawnTime (stepEngine f s) = lastNoteSpawnTime s1
  /\ fretStatesRef (stepEngine f s) = fretStatesRef s
  /\ currentChordRef (stepEngine f s) = currentChordRef s
  /\ isAudioStartedRef (stepEngine f s) = isAudioStartedRef s
  /\ gameStartTimeRef (stepEngine f s) = gameStartTimeRef s.
Proof.
  intros s1 d dir j. subst d dir j.
  destruct (afterSpawn_refs f s) as (Hsc & Hfr & Hau & _ & Hch & Hgs).
  fold s1 in Hsc, Hfr, Hau, Hch, Hgs.
  pose proof (detectStrum_refs f s1) as Hr.
  pose proof (detectStrum_other_refs f s1) as Ho.
  unfold stepEngine, gameLoop. fold s1.
  destruct (detectStrum f s1) as [[s2 d] dir]. simpl in Hr, Ho. simpl fst. simpl snd.
  destruct Hr as (Hn & Hid & Hs2 & Hf2). destruct Ho as (Ha2 & Hl2 & Hc2 & Hg2).
  rewrite Hf2, Hn, Hs2, Hfr, Hsc.
  destruct (judgeNotes d dir (fretStatesRef s) (HIT_ZONE_X (dims_w f))
              (notesRef s1) (score s)) as [[notes sc] ev].
  simpl. repeat split; congruence.
Qed.

(** ** The counters *)

(** The four things one iteration of the judge can do to the counters. *)
Lemma judgeNote_score_cases (didStrum : bool) (strumDir : StrumDir)
    (frets : list (option Z)) (HZ : Z) (n : Note) (sc : Score) :
  let sc' := snd (fst (judgeNote didStrum strumDir frets HZ n sc)) in
  sc' = sc
  \/ (didStrum = true /\
      sc' = mkScore (scoreRef sc + 1000) (comboRef sc + 1) (perfectCountRef sc + 1)
                    (greatCountRef sc) (missCountRef sc))
  \/ (didStrum = true /\
      sc' = mkScore (scoreRef sc + 500) (comboRef sc + 1) (perfectCountRef sc)
                    (greatCountRef sc + 1) (missCountRef sc))
  \/ sc' = mkScore (scoreRef sc) 0 (perfectCountRef sc) (greatCountRef sc)
                   (missCountRef sc + 1).
Proof.
  intros sc'. subst sc'.
  destruct (isPending n) eqn:Hp.
  - destruct (judgeNote_pending didStrum strumDir frets HZ n sc Hp)
      as [(Hd & _ & _ & Hs) | [(_ & _ & _ & Hs) | (_ & _ & Hn & _)]].
    + rewrite Hs. destruct (isPerfectDist _); auto.
    + rewrite Hs. auto.
    + apply (f_equal snd) in Hn. simpl in Hn. rewrite Hn. left. now destruct sc.
  - rewrite judgeNote_not_pending by exact Hp. now left.
Qed.

(** A property of the counters that every iteration preserves is
    preserved by the loop. *)
Lemma judgeNotes_score_preserved (P : Score -> Prop) (didStrum : bool)
    (strumDir : StrumDir) (frets : list (option Z)) (HZ : Z) :
  (forall n sc, P sc -> P (snd (fst (judgeNote didStrum strumDir frets HZ n sc)))) ->
  forall notes sc, P sc -> P (snd (fst (judgeNotes didStrum strumDir frets HZ notes sc))).
Proof.
  intros Hstep notes. induction notes as [| n rest IH]; intros sc Hsc; simpl; [exact Hsc |].
  specialize (IH sc Hsc).
  destruct (judgeNotes didStrum strumDir frets HZ rest sc) as [[rest' sc1] ev1].
  simpl in IH. specialize (Hstep n sc1 IH).
  destruct (judgeNote didStrum strumDir frets HZ n sc1) as [[n' sc2] ev2].
  exact Hstep.
Qed.

(** Messages and the start button do not touch the counters. *)
Lemma handleEvent_other_score (e : Event) (s : Engine) :
  (forall f, e <> Tick f) -> score (handleEvent e s) = score s.
Proof.
  destruct e as [f | p | t]; intros Hne; [now destruct (Hne f) | | reflexivity].
  destruct p; reflexivity.
Qed.

(** A property of the counters that every iteration of the judge preserves
    holds at the end of a session if it held at its beginning. *)
Lemma run_score_preserved (P : Score -> Prop) :
  (forall didStrum strumDir frets HZ n sc,
      P sc -> P (snd (fst (judgeNote didStrum strumDir frets HZ n sc)))) ->
  forall es s, P (score s) -> P (score (run es s)).
Proof.
  intros Hstep es. induction es as [| e es IH]; intros s Hs; simpl; [exact Hs |].
  apply IH. destruct e as [f | p | t].
  - simpl. destruct (gameLoop_unfold f s) as (_ & _ & Hsc & _). rewrite Hsc.
    apply judgeNotes_score_preserved; [apply Hstep | exact Hs].
  - now rewrite handleEvent_other_score by discriminate.
  - now rewrite handleEvent_other_score by discriminate.
Qed.

(** X1.  A pending note that the frame's advance carries past
    [HIT_ZONE_X + HIT_WINDOW] is marked missed on that frame, whether or not
    the frame strums: it is not hit, the combo falls to zero, the miss count
    grows by one, the score and the perfect and great counts are untouched,
    and the calls made are the combo display, the MISS rating and the muted
    sound, in this order. *)
Theorem X1_miss_transition (didStrum : bool) (strumDir : StrumDir)
    (frets : list (option Z)) (HZ : Z) (n : Note) (sc : Score) :
  isPending n = true ->
  HZ + HIT_WINDOW < note_x n + NOTE_SPEED ->
  judgeNote didStrum strumDir frets HZ n sc
  = (mkNote (note_id n) (note_x n + NOTE_SPEED) (chordName n) false true,
     mkScore (scoreRef sc) 0 (perfectCountRef sc) (greatCountRef sc)
             (missCountRef sc + 1),
     [setComboDisplay 0; setLastRating "MISS"; playMuted]).
Proof.
  intros Hp Hx.
  assert (Hh : hit n = false /\ missed n = false).
  { unfold isPending in Hp. apply andb_true_iff in Hp.
    destruct Hp as [Hp1 Hp2]. apply negb_true_iff in Hp1, Hp2. now split. }
  destruct Hh as [Hh Hm].
  unfold judgeNote. rewrite Hp. unfold strumNote. simpl note_x.
  assert (Hd : (Z.abs (note_x n + NOTE_SPEED - HZ) <? HIT_WINDOW) = false)
    by (apply Z.ltb_ge; lia).
  rewrite Hd, Hh, Hm.
  assert (Hb : (HZ + HIT_WINDOW <? note_x n + NOTE_SPEED) = true)
    by (apply Z.ltb_lt; lia).
  destruct didStrum; unfold missNote; simpl note_x; rewrite Hb; reflexivity.
Qed.

Lemma X1_miss_transition_witness :
  isPending lateNote = true
  /\ missCountRef (snd (fst (judgeNote true down [] 1030 lateNote score0))) = 1.
Proof.
  split; [reflexivity |].
  rewrite (X1_miss_transition true down [] 1030 lateNote score0 eq_refl
             ltac:(vm_compute; reflexivity)).
  reflexivity.
Defined.

(** X2.  From the initial refs, at the end of any session of frames,
    messages and presses of the start button, the score is 1000 times the
    perfect count plus 500 times the great count, the combo lies between
    zero and the number of hits, and no counter is negative. *)
Theorem X2_score_identity (es : list Event) :
  let sc := score (run es initEngine) in
  scoreRef sc = 1000 * perfectCountRef sc + 500 * greatCountRef sc
  /\ 0 <= comboRef sc <= hitCount sc
  /\ 0 <= perfectCountRef sc /\ 0 <= greatCountRef sc /\ 0 <= missCountRef sc.
Proof.
  apply (run_score_preserved
           (fun sc => scoreRef sc = 1000 * perfectCountRef sc + 500 * greatCountRef sc
                      /\ 0 <= comboRef sc <= hitCount sc
                      /\ 0 <= perfectCountRef sc /\ 0 <= greatCountRef sc
                      /\ 0 <= missCountRef sc)).
  - intros d dir fr HZ n sc (H1 & H2 & H3 & H4 & H5). unfold hitCount in *.
    destruct (judgeNote_score_cases d dir fr HZ n sc)
      as [-> | [(_ & ->) | [(_ & ->) | ->]]]; simpl; lia.
  - unfold hitCount. simpl. lia.
Qed.

(** X3.  Over any session, from any state, the score and the perfect,
    great and miss counts never decrease. *)
Theorem X3_counters_never_decrease (es : list Event) (s : Engine) :
  scoreRef (score s) <= scoreRef (score (run es s))
  /\ perfectCountRef (score s) <= perfectCountRef (score (run es s))
  /\ greatCountRef (score s) <= greatCountRef (score (run es s))
  /\ missCountRef (score s) <= missCountRef (score (run es s)).
Proof.
  apply (run_score_preserved
           (fun sc => scoreRef (score s) <= scoreRef sc
                      /\ perfectCountRef (score s) <= perfectCountRef sc
                      /\ greatCountRef (score s) <= greatCountRef sc
                      /\ missCountRef (score s) <= missCountRef sc)).
  - intros d dir fr HZ n sc (H1 & H2 & H3 & H4).
    destruct (judgeNote_score_cases d dir fr HZ n sc)
      as [-> | [(_ & ->) | [(_ & ->) | ->]]]; simpl; lia.
  - lia.
Qed.

(** X4.  A session in which no strum is emitted leaves the score and the
    perfect and great counts as they were: notes are hit on strums only. *)
Theorem X4_no_strum_no_hit (es : list Event) (s : Engine) :
  strumTimes es s = [] ->
  scoreRef (score (run es s)) = scoreRef (score s)
  /\ perfectCountRef (score (run es s)) = perfectCountRef (score s)
  /\ greatCountRef (score (run es s)) = greatCountRef (score s).
Proof.
  revert s. induction es as [| e es IH]; intros s Hno; simpl; [auto |].
  simpl in Hno. apply app_eq_nil in Hno. destruct Hno as [He Hes].
  destruct (IH _ Hes) as (I1 & I2 & I3). rewrite I1, I2, I3. clear IH I1 I2 I3.
  destruct e as [f | p | t].
  - simpl in He. simpl handleEvent.
    destruct (gameLoop_unfold f s) as (Hd & _ & Hsc & _). rewrite Hsc.
    destruct (snd (fst (gameLoop f s))); [discriminate |]. rewrite <- Hd.
    apply (judgeNotes_score_preserved
             (fun sc => scoreRef sc = scoreRef (score s)
                        /\ perfectCountRef sc = perfectCountRef (score s)
                        /\ greatCountRef sc = greatCountRef (score s))); [| auto].
    intros n sc (H1 & H2 & H3).
    destruct (judgeNote_score_cases false (snd (detectStrum f (afterSpawn f s)))
                (fretStatesRef s) (HIT_ZONE_X (dims_w f)) n sc)
      as [-> | [(Hf & _) | [(Hf & _) | ->]]]; try discriminate; simpl; auto.
  - now rewrite handleEvent_other_score by discriminate.
  - now rewrite handleEvent_other_score by discriminate.
Qed.

Lemma X4_no_strum_no_hit_witness :
  strumTimes (ticks (quietSession 79)) oneNoteEngine = []
  /\ scoreRef (score (run (ticks (quietSession 79)) oneNoteEngine)) = 0.
Proof.
  assert (H : strumTimes (ticks (quietSession 79)) oneNoteEngine = [])
    by (vm_compute; reflexivity).
  split; [exact H |].
  exact (proj1 (X4_no_strum_no_hit (ticks (quietSession 79)) oneNoteEngine H)).
Defined.

(** X5.  Until the start button is pressed nothing is spawned: a session
    of frames and messages only, from refs with no note and the audio not
    started, ends with no note, with the counters as they were and with the
    audio still not started. *)
Theorem X5_nothing_before_start (es : list Event) (s : Engine) :
  isAudioStartedRef s = false -> notesRef s = [] ->
  forallb (fun e => negb (isStart e)) es = true ->
  notesRef (run es s) = [] /\ score (run es s) = score s
  /\ nextNoteId (run es s) = nextNoteId s
  /\ isAudioStartedRef (run es s) = false.
Proof.
  revert s. induction es as [| e es IH]; intros s Ha Hn Hes; simpl; [auto |].
  simpl in Hes. apply andb_true_iff in Hes. destruct Hes as [He Hes].
  assert (Hstep : isAudioStartedRef (handleEvent e s) = false
                  /\ notesRef (handleEvent e s) = []
                  /\ score (handleEvent e s) = score s
                  /\ nextNoteId (handleEvent e s) = nextNoteId s).
  { destruct e as [f | p | t]; [| destruct p; simpl; auto | discriminate].
    simpl handleEvent.
    destruct (gameLoop_unfold f s) as (_ & _ & Hsc & Hnotes & Hid & _ & _ & _ & Hau & _).
    assert (Hs1 : afterSpawn f s = s) by (unfold afterSpawn; now rewrite Ha).
    rewrite Hs1, Hn in Hnotes. rewrite Hs1, Hn in Hsc. rewrite Hs1 in Hid.
    simpl in Hnotes, Hsc. rewrite Hau. auto. }
  destruct Hstep as (Ha' & Hn' & Hsc' & Hid').
  destruct (IH _ Ha' Hn' Hes) as (I1 & I2 & I3 & I4).
  rewrite I1, I2, I3, I4. auto.
Qed.

Lemma X5_nothing_before_start_witness :
  notesRef (run (ticks slowSession) initEngine) = []
  /\ score (run (ticks slowSession) initEngine) = score0.
Proof.
  destruct (X5_nothing_before_start (ticks slowSession) initEngine eq_refl eq_refl
              ltac:(vm_compute; reflexivity)) as (H1 & H2 & _).
  split; [exact H1 | exact H2].
Defined.

(** ** The scheduler *)

(** What [spawnNote], guarded by the start flag, does on a frame. *)
Lemma afterSpawn_cases (f : Frame) (s : Engine) :
  (afterSpawn f s = s
   /\ (isAudioStartedRef s = false \/ spawnNow f - lastNoteSpawnTime s <= 1100))
  \/ (isAudioStartedRef s = true /\ 1100 < spawnNow f - lastNoteSpawnTime s
      /\ notesRef (afterSpawn f s)
         = notesRef s ++ [mkNote (nextNoteId s) (-100)
                                 (nth (randomIndex f) chords "") false false]
      /\ nextNoteId (afterSpawn f s) = nextNoteId s + 1
      /\ lastNoteSpawnTime (afterSpawn f s) = spawnNow f).
Proof.
  unfold afterSpawn, spawnNote. destruct (isAudioStartedRef s); [| left; auto].
  destruct (Z.ltb_spec 1100 (spawnNow f - lastNoteSpawnTime s)).
  - right. simpl. auto.
  - left. auto.
Qed.

(** X6.  Notes are spawned more than 1100 ms apart by the clock that
    [spawnNote] reads: the spawn times of any session are more than 1100 ms
    after the spawn recorded before it and more than 1100 ms apart from each
    other; a frame spawns at most one note, and the id counter grows by
    exactly the number of spawns. *)
Theorem X6_spawns_are_paced (es : list Event) (s : Engine) :
  Forall (fun t => 1100 < t - lastNoteSpawnTime s) (spawnTimes es s)
  /\ StronglySorted (fun a b => 1100 < b - a) (spawnTimes es s)
  /\ nextNoteId (run es s) = nextNoteId s + Z.of_nat (length (spawnTimes es s))
  /\ (length (spawnTimes es s) <= countTicks es)%nat.
Proof.
  revert s. induction es as [| e es IH]; intros s; simpl.
  - repeat split; try constructor. lia.
  - destruct (IH (handleEvent e s)) as (IHall & IHsorted & IHid & IHlen).
    assert (Hother : (forall f, e <> Tick f) ->
                     lastNoteSpawnTime (handleEvent e s) = lastNoteSpawnTime s).
    { destruct e as [f | p | t]; intros Hne; [now destruct (Hne f) | | reflexivity].
      destruct p; reflexivity. }
    destruct e as [f | p | t].
    2:{ destruct (handleEvent_other (Message p) s ltac:(discriminate)) as (_ & Hid & _).
        rewrite Hother in IHall by discriminate. rewrite Hid in IHid. simpl.
        repeat split; auto. }
    2:{ destruct (handleEvent_other (Start t) s ltac:(discriminate)) as (_ & Hid & _).
        rewrite Hother in IHall by discriminate. rewrite Hid in IHid. simpl.
        repeat split; auto. }
    simpl handleEvent in *. simpl spawnOf.
    destruct (gameLoop_unfold f s) as (_ & _ & _ & _ & Hid & Hlast & _).
    rewrite Hlast in IHall. rewrite Hid in IHid. rewrite Hid.
    destruct (afterSpawn_cases f s) as [[Hs _] | (_ & Hgap & _ & Hid1 & Hl1)].
    + rewrite Hs in *. rewrite Z.eqb_refl. simpl. repeat split; auto; lia.
    + rewrite Hid1, Hl1 in *.
      replace (nextNoteId s + 1 =? nextNoteId s) with false
        by (symmetry; apply Z.eqb_neq; lia).
      simpl. repeat split.
      * constructor; [exact Hgap |].
        eapply Forall_impl; [exact IHall |]. simpl. intros; lia.
      * constructor; [exact IHsorted | exact IHall].
      * lia.
      * lia.
Qed.

(** ** The track, on a canvas of constant width *)

Lemma judgeNote_ledger (didStrum : bool) (strumDir : StrumDir)
    (frets : list (option Z)) (W : Z) (n : Note) (sc : Score) :
  hit n = false -> note_x n < W + 200 ->
  (isPending n = true -> note_x n < W + 184) ->
  let n' := fst (fst (judgeNote didStrum strumDir frets (HIT_ZONE_X W) n sc)) in
  let sc' := snd (fst (judgeNote didStrum strumDir frets (HIT_ZONE_X W) n sc)) in
  note_x n' < W + 200
  /\ (isPending n' = true -> note_x n' < W + 184)
  /\ (hit n' = true -> missed n' = false)
  /\ hitCount sc' = hitCount sc + Z.b2z (hit n')
  /\ missCountRef sc' = missCountRef sc + Z.b2z (missed n') - Z.b2z (missed n).
Proof.
  intros Hh Hx Hpx n' sc'. subst n' sc'. unfold hitCount, HIT_ZONE_X.
  destruct (isPending n) eqn:Hp.
  - specialize (Hpx eq_refl).
    assert (Hm : missed n = false).
    { unfold isPending in Hp. apply andb_true_iff in Hp.
      destruct Hp as [_ Hp]. now apply negb_true_iff in Hp. }
    destruct (judgeNote_pending didStrum strumDir frets (W - 250) n sc Hp)
      as [(_ & _ & Hn & Hs) | [(_ & _ & Hn & Hs) | (_ & Hle & Hn & _)]].
    + rewrite Hn, Hs, Hm. unfold NOTE_SPEED. simpl.
      repeat split; try discriminate; try lia.
      destruct (isPerfectDist _); simpl; lia.
    + rewrite Hn, Hs, Hm. unfold NOTE_SPEED. simpl.
      repeat split; try discriminate; lia.
    + pose proof (f_equal fst Hn) as Hn1. pose proof (f_equal snd Hn) as Hn2.
      simpl in Hn1, Hn2. rewrite Hn1, Hn2, Hm. unfold NOTE_SPEED, HIT_WINDOW in *.
      simpl. repeat split; try discriminate; lia.
  - rewrite judgeNote_not_pending by exact Hp. simpl. rewrite Hp, Hh. simpl.
    repeat split; try discriminate; lia.
Qed.

Lemma judgeNotes_ledger (didStrum : bool) (strumDir : StrumDir)
    (frets : list (option Z)) (W : Z) (notes : list Note) (sc : Score) :
  Forall (fun n => hit n = false /\ note_x n < W + 200
                   /\ (isPending n = true -> note_x n < W + 184)) notes ->
  let notes' := fst (fst (judgeNotes didStrum strumDir frets (HIT_ZONE_X W) notes sc)) in
  let sc' := snd (fst (judgeNotes didStrum strumDir frets (HIT_ZONE_X W) notes sc)) in
  Forall (fun n' => note_x n' < W + 200
                    /\ (isPending n' = true -> note_x n' < W + 184)
                    /\ (hit n' = true -> missed n' = false)) notes'
  /\ hitCount sc' = hitCount sc + countNotes hit notes'
  /\ missCountRef sc' = missCountRef sc + countNotes missed notes'
                        - countNotes missed notes
  /\ length notes' = length notes.
Proof.
  induction 1 as [| n rest (Hh & Hx & Hpx) Hrest IH]; simpl.
  - repeat split; try constructor; lia.
  - destruct IH as (IHall & IHhit & IHmiss & IHlen).
    destruct (judgeNotes didStrum strumDir frets (HIT_ZONE_X W) rest sc)
      as [[rest' sc1] ev1].
    simpl in IHall, IHhit, IHmiss, IHlen.
    pose proof (judgeNote_ledger didStrum strumDir frets W n sc1 Hh Hx Hpx) as Hn.
    destruct (judgeNote didStrum strumDir frets (HIT_ZONE_X W) n sc1)
      as [[n' sc2] ev2].
    simpl in Hn. destruct Hn as (H1 & H2 & H3 & H4 & H5). simpl.
    repeat split; try lia.
    constructor; [auto | exact IHall].
Qed.

(** Among notes short of the off-track margin, the final filter of a frame
    removes the hit ones and nothing else. *)
Lemma filter_keepNote_ledger (W : Z) (notes : list Note) :
  Forall (fun n' => note_x n' < W + 200
                    /\ (isPending n' = true -> note_x n' < W + 184)
                    /\ (hit n' = true -> missed n' = false)) notes ->
  Forall (fun n => hit n = false /\ note_x n < W + 200
                   /\ (isPending n = true -> note_x n < W + 184))
         (List.filter (keepNote W) notes)
  /\ Z.of_nat (length (List.filter (keepNote W) notes))
     = Z.of_nat (length notes) - countNotes hit notes
  /\ countNotes missed (List.filter (keepNote W) notes) = countNotes missed notes
  /\ countNotes hit (List.filter (keepNote W) notes) = 0.
Proof.
  induction 1 as [| n rest (Hx & Hpx & Hhm) Hrest IH]; simpl.
  - repeat split; try constructor.
  - destruct IH as (IHall & IHlen & IHmiss & IHhit).
    assert (Hk : keepNote W n = negb (hit n)).
    { unfold keepNote.
      now replace (note_x n <? W + 200) with true by (symmetry; apply Z.ltb_lt; lia). }
    rewrite Hk. destruct (hit n) eqn:Hh; cbn [negb countNotes length].
    + rewrite (Hhm eq_refl). cbn [Z.b2z]. repeat split; auto; lia.
    + cbn [Z.b2z]. split; [| repeat split; rewrite ?Hh; cbn [Z.b2z]; lia].
      constructor; [repeat split; auto | exact IHall].
Qed.

Lemma countNotes_app (p : Note -> bool) (l1 l2 : list Note) :
  countNotes p (l1 ++ l2) = countNotes p l1 + countNotes p l2.
Proof. induction l1 as [| a l1 IH]; simpl; lia. Qed.

(** One frame, on a canvas of width [W]: the track stays in order, and the
    notes in the list, the hits counted and the ids handed out stay in
    balance, as do the missed notes in the list and the misses counted. *)
Lemma stepEngine_ledger (W : Z) (f : Frame) (s : Engine) :
  0 <= W -> dims_w f = W -> onTrack W s ->
  onTrack W (stepEngine f s)
  /\ Z.of_nat (length (notesRef (stepEngine f s))) + hitCount (score (stepEngine f s))
     - nextNoteId (stepEngine f s)
     = Z.of_nat (length (notesRef s)) + hitCount (score s) - nextNoteId s
  /\ countNotes missed (notesRef (stepEngine f s)) - missCountRef (score (stepEngine f s))
     = countNotes missed (notesRef s) - missCountRef (score s).
Proof.
  intros HW Hw Hon.
  destruct (gameLoop_unfold f s) as (_ & _ & Hsc & Hnotes & Hid & _).
  rewrite Hw in Hsc, Hnotes.
  assert (Hon1 : Forall (fun n => hit n = false /\ note_x n < W + 200
                                  /\ (isPending n = true -> note_x n < W + 184))
                        (notesRef (afterSpawn f s))
                 /\ Z.of_nat (length (notesRef (afterSpawn f s))) - nextNoteId (afterSpawn f s)
                    = Z.of_nat (length (notesRef s)) - nextNoteId s
                 /\ countNotes missed (notesRef (afterSpawn f s))
                    = countNotes missed (notesRef s)).
  { destruct (afterSpawn_cases f s) as [[Hs _] | (_ & _ & Hn & Hi & _)].
    - rewrite Hs. auto.
    - rewrite Hn, Hi, length_app, countNotes_app. simpl. repeat split; try lia.
      apply Forall_app. split; [exact Hon |].
      constructor; [| constructor]. simpl. repeat split; intros; lia. }
  destruct Hon1 as (Hall1 & Hlen1 & Hmiss1).
  pose proof (judgeNotes_ledger
                (snd (fst (detectStrum f (afterSpawn f s))))
                (snd (detectStrum f (afterSpawn f s)))
                (fretStatesRef s) W (notesRef (afterSpawn f s)) (score s) Hall1) as Hj.
  simpl in Hj. destruct Hj as (Hall2 & Hhit2 & Hmiss2 & Hlen2).
  destruct (filter_keepNote_ledger W _ Hall2) as (Hall3 & Hlen3 & Hmiss3 & _).
  unfold onTrack. rewrite Hnotes, Hsc, Hid. split; [exact Hall3 |].
  split; lia.
Qed.

Lemma handleEvent_ledger (W : Z) (e : Event) (s : Engine) :
  0 <= W -> match e with Tick f => dims_w f = W | _ => True end -> onTrack W s ->
  onTrack W (handleEvent e s)
  /\ Z.of_nat (length (notesRef (handleEvent e s))) + hitCount (score (handleEvent e s))
     - nextNoteId (handleEvent e s)
     = Z.of_nat (length (notesRef s)) + hitCount (score s) - nextNoteId s
  /\ countNotes missed (notesRef (handleEvent e s)) - missCountRef (score (handleEvent e s))
     = countNotes missed (notesRef s) - missCountRef (score s).
Proof.
  intros HW He Hon. destruct e as [f | p | t].
  - now apply stepEngine_ledger.
  - destruct (handleEvent_other (Message p) s ltac:(discriminate)) as (Hn & Hid & _).
    unfold onTrack.
    rewrite Hn, Hid, (handleEvent_other_score (Message p) s) by discriminate. auto.
  - destruct (handleEvent_other (Start t) s ltac:(discriminate)) as (Hn & Hid & _).
    unfold onTrack.
    rewrite Hn, Hid, (handleEvent_other_score (Start t) s) by discriminate. auto.
Qed.

Lemma run_ledger (W : Z) (es : list Event) (s : Engine) :
  0 <= W -> fixedWidth W es -> onTrack W s ->
  onTrack W (run es s)
  /\ Z.of_nat (length (notesRef (run es s))) + hitCount (score (run es s))
     - nextNoteId (run es s)
     = Z.of_nat (length (notesRef s)) + hitCount (score s) - nextNoteId s
  /\ countNotes missed (notesRef (run es s)) - missCountRef (score (run es s))
     = countNotes missed (notesRef s) - missCountRef (score s).
Proof.
  intros HW Hfix. revert s.
  induction Hfix as [| e es He Hes IH]; intros s Hon; simpl; [auto |].
  destruct (handleEvent_ledger W e s HW He Hon) as (Hon1 & H1 & H2).
  destruct (IH _ Hon1) as (Hon2 & H3 & H4).
  split; [exact Hon2 |]. split; lia.
Qed.

Lemma onTrack_init (W : Z) : onTrack W initEngine.
Proof. constructor. Qed.

(** X7.  On a canvas whose width does not change, from the initial refs
    and over any session: no note in the list is flagged hit (a hit note
    leaves the list on the frame that hits it), every note ever spawned is
    still in the list unless it was hit, so that the length of the list is
    the number of ids handed out minus the number of hits, and the notes
    flagged missed in the list are as many as the miss count. *)
Theorem X7_track_ledger (W : Z) (es : list Event) :
  0 <= W -> fixedWidth W es ->
  Forall (fun n => hit n = false) (notesRef (run es initEngine))
  /\ Z.of_nat (length (notesRef (run es initEngine)))
     = nextNoteId (run es initEngine) - hitCount (score (run es initEngine))
  /\ countNotes missed (notesRef (run es initEngine))
     = missCountRef (score (run es initEngine)).
Proof.
  intros HW Hfix.
  destruct (run_ledger W es initEngine HW Hfix (onTrack_init W)) as (Hon & H1 & H2).
  simpl in H1, H2. unfold hitCount in H1 at 2. simpl in H1.
  split; [| split; lia].
  eapply Forall_impl; [exact Hon |]. simpl. tauto.
Qed.

Lemma fixedWidth_slowSession : fixedWidth 1280 (Start 0 :: ticks slowSession).
Proof. unfold fixedWidth. vm_compute. repeat constructor. Qed.

Lemma X7_track_ledger_witness :
  0 <= 1280
  /\ Z.of_nat (length (notesRef (run (Start 0 :: ticks slowSession) initEngine)))
     = nextNoteId (run (Start 0 :: ticks slowSession) initEngine)
       - hitCount (score (run (Start 0 :: ticks slowSession) initEngine)).
Proof.
  assert (HW : 0 <= 1280) by lia.
  split; [exact HW |].
  exact (proj1 (proj2 (X7_track_ledger 1280 (Start 0 :: ticks slowSession) HW
                         fixedWidth_slowSession))).
Defined.

(** The judge keeps a resolved note where it is. *)
Lemma judgeNotes_keeps_resolved (didStrum : bool) (strumDir : StrumDir)
    (frets : list (option Z)) (HZ : Z) (notes : list Note) (sc : Score) (n : Note) :
  In n notes -> isPending n = false ->
  In n (fst (fst (judgeNotes didStrum strumDir frets HZ notes sc))).
Proof.
  intros Hin Hp. induction notes as [| a rest IH]; simpl in *; [tauto |].
  destruct (judgeNotes didStrum strumDir frets HZ rest sc) as [[rest' sc1] ev1].
  destruct (judgeNote didStrum strumDir frets HZ a sc1) as [[a' sc2] ev2] eqn:Ea.
  simpl in *. destruct Hin as [-> | Hin]; [| right; now apply IH].
  rewrite judgeNote_not_pending in Ea by exact Hp. injection Ea as <- _ _. now left.
Qed.

(** X8.  On a canvas whose width does not change, a missed note is never
    removed: however long the session goes on, it stays in the list with
    its position and flags as they were when it was missed.  (The margin
    [CANVAS_W + 200] of the final filter is never reached, since a missed
    note stops advancing.) *)
Theorem X8_missed_notes_stay (W : Z) (es : list Event) (s : Engine) (n : Note) :
  0 <= W -> fixedWidth W es -> onTrack W s ->
  In n (notesRef s) -> missed n = true ->
  In n (notesRef (run es s)).
Proof.
  intros HW Hfix. revert s.
  induction Hfix as [| e es He Hes IH]; intros s Hon Hin Hm; simpl; [exact Hin |].
  destruct (handleEvent_ledger W e s HW He Hon) as (Hon1 & _).
  apply IH; [exact Hon1 | | exact Hm].
  destruct e as [f | p | t].
  - simpl handleEvent.
    destruct (gameLoop_unfold f s) as (_ & _ & _ & Hnotes & _).
    rewrite Hnotes. apply List.filter_In. split.
    + apply judgeNotes_keeps_resolved.
      * destruct (afterSpawn_cases f s) as [[Hs _] | (_ & _ & Hn & _)].
        -- now rewrite Hs.
        -- rewrite Hn. apply in_or_app. now left.
      * unfold isPending. rewrite Hm. apply andb_false_r.
    + unfold onTrack in Hon. rewrite List.Forall_forall in Hon.
      destruct (Hon n Hin) as (Hh & Hx & _).
      unfold keepNote. rewrite Hh, He. simpl. rewrite andb_true_r.
      apply Z.ltb_lt. lia.
  - destruct (handleEvent_other (Message p) s ltac:(discriminate)) as (Hn & _).
    now rewrite Hn.
  - destruct (handleEvent_other (Start t) s ltac:(discriminate)) as (Hn & _).
    now rewrite Hn.
Qed.

Lemma X8_missed_notes_stay_witness :
  In missedNote (notesRef missedEngine)
  /\ In missedNote
        (notesRef (run (ticks [quietFrame 9100; quietFrame 9200]) missedEngine)).
Proof.
  assert (Hin : In missedNote (notesRef missedEngine)) by (vm_compute; left; reflexivity).
  assert (Hfix0 : fixedWidth 1280 (Start 0 :: ticks (quietSession 79)))
    by (unfold fixedWidth; vm_compute; repeat constructor).
  assert (Hon : onTrack 1280 missedEngine)
    by (apply (run_ledger 1280 _ initEngine ltac:(lia) Hfix0 (onTrack_init 1280))).
  assert (Hfix : fixedWidth 1280 (ticks [quietFrame 9100; quietFrame 9200]))
    by (repeat constructor).
  split; [exact Hin |].
  exact (X8_missed_notes_stay 1280 _ missedEngine missedNote ltac:(lia) Hfix Hon Hin
           eq_refl).
Defined.

(** ** The calls of a frame *)

(** The calls of one iteration of the judge, with what it does to the
    counters: nothing, a hit or a miss. *)
Lemma judgeNote_effects_cases (didStrum : bool) (strumDir : StrumDir)
    (frets : list (option Z)) (HZ : Z) (n : Note) (sc : Score) :
  let sc' := snd (fst (judgeNote didStrum strumDir frets HZ n sc)) in
  let evs := snd (judgeNote didStrum strumDir frets HZ n sc) in
  (evs = [] /\ sc' = sc)
  \/ (didStrum = true /\
      (exists rating,
          evs = [setScoreDisplay (scoreRef sc'); setComboDisplay (comboRef sc');
                 setLastRating rating; playStrum frets strumDir]) /\
      hitCount sc' = hitCount sc + 1 /\ missCountRef sc' = missCountRef sc)
  \/ (evs = [setComboDisplay 0; setLastRating "MISS"; playMuted] /\
      hitCount sc' = hitCount sc /\ missCountRef sc' = missCountRef sc + 1 /\
      comboRef sc' = 0 /\ scoreRef sc' = scoreRef sc).
Proof.
  intros sc' evs. subst sc' evs. unfold hitCount.
  destruct (isPending n) eqn:Hp.
  2:{ left. now rewrite judgeNote_not_pending. }
  assert (Hh : hit n = false /\ missed n = false).
  { unfold isPending in Hp. apply andb_true_iff in Hp.
    destruct Hp as [Hp1 Hp2]. apply negb_true_iff in Hp1, Hp2. now split. }
  destruct Hh as [Hh Hm].
  unfold judgeNote. rewrite Hp. unfold strumNote. simpl note_x.
  destruct didStrum.
  - destruct (Z.ltb_spec (Z.abs (note_x n + NOTE_SPEED - HZ)) HIT_WINDOW) as [Hd | Hd].
    + right; left. unfold missNote. simpl note_x.
      rewrite (window_not_beyond HZ _ Hd). simpl.
      split; [reflexivity |]. split; [eexists; reflexivity |].
      destruct (isPerfectDist _); simpl; lia.
    + unfold missNote. simpl note_x.
      destruct (Z.ltb_spec (HZ + HIT_WINDOW) (note_x n + NOTE_SPEED)); simpl.
      * right; right. repeat split; lia.
      * left. split; [reflexivity | now destruct sc].
  - unfold missNote. simpl note_x.
    destruct (Z.ltb_spec (HZ + HIT_WINDOW) (note_x n + NOTE_SPEED)); simpl.
    + right; right. repeat split; lia.
    + left. split; [reflexivity | now destruct sc].
Qed.

Lemma countEffects_app (p : Effect -> bool) (l1 l2 : list Effect) :
  countEffects p (l1 ++ l2) = countEffects p l1 + countEffects p l2.
Proof. unfold countEffects. rewrite List.filter_app, length_app. lia. Qed.

Lemma judgeNotes_effects (didStrum : bool) (strumDir : StrumDir)
    (frets : list (option Z)) (HZ : Z) (notes : list Note) (sc : Score) :
  let sc' := snd (fst (judgeNotes didStrum strumDir frets HZ notes sc)) in
  let evs := snd (judgeNotes didStrum strumDir frets HZ notes sc) in
  Forall (fun ev => match ev with
                    | playStrum fr dir => fr = frets /\ dir = strumDir /\ didStrum = true
                    | _ => True
                    end) evs
  /\ countEffects isPlayStrum evs = hitCount sc' - hitCount sc
  /\ countEffects isPlayMuted evs = missCountRef sc' - missCountRef sc
  /\ shownCombo evs (comboRef sc) = comboRef sc'
  /\ shownScore evs (scoreRef sc) = scoreRef sc'.
Proof.
  induction notes as [| n rest IH]; simpl.
  - repeat split; try constructor; unfold countEffects; simpl; lia.
  - destruct IH as (IHall & IHs & IHm & IHc & IHd).
    destruct (judgeNotes didStrum strumDir frets HZ rest sc) as [[rest' sc1] ev1].
    simpl in IHall, IHs, IHm, IHc, IHd.
    pose proof (judgeNote_effects_cases didStrum strumDir frets HZ n sc1) as Hn.
    destruct (judgeNote didStrum strumDir frets HZ n sc1) as [[n' sc2] ev2].
    simpl in Hn. simpl.
    unfold shownCombo, shownScore in *.
    rewrite !countEffects_app, !fold_left_app, IHc, IHd.
    destruct Hn as [(-> & ->) | [(Hd & (rating & ->) & Hh & Hm) | (-> & Hh & Hm & Hc & Hs)]].
    + rewrite app_nil_r. unfold countEffects at 2 4. simpl. repeat split; auto; lia.
    + unfold countEffects at 2 4. simpl. repeat split; try lia.
      apply Forall_app. split; [exact IHall |].
      repeat constructor; auto.
    + unfold countEffects at 2 4. simpl. repeat split; try lia.
      apply Forall_app. split; [exact IHall |].
      repeat constructor.
Qed.

(** ** A frame that waits for the hands *)

Lemma gameLoopAwait_nil (f : Frame) (s : Engine) :
  gameLoopAwait f [] s = gameLoop f s.
Proof. reflexivity. Qed.

Lemma handleAsync_refs (a : Async) (s : Engine) :
  score (handleAsync a s) = score s /\ notesRef (handleAsync a s) = notesRef s.
Proof. destruct a as [[] |]; split; reflexivity. Qed.

Lemma duringAwait_refs (during : list Async) (s : Engine) :
  score (duringAwait during s) = score s
  /\ notesRef (duringAwait during s) = notesRef s.
Proof.
  revert s. induction during as [| a l IH]; intros s; [now split |].
  unfold duringAwait in *. simpl.
  destruct (IH (handleAsync a s)) as [H1 H2].
  destruct (handleAsync_refs a s) as (H3 & H4).
  split; congruence.
Qed.

Lemma afterAwait_unfold (f : Frame) (s1 : Engine) :
  let d := snd (fst (detectStrum f s1)) in
  let dir := snd (detectStrum f s1) in
  let j := judgeNotes d dir (fretStatesRef s1) (HIT_ZONE_X (dims_w f))
                      (notesRef s1) (score s1) in
  snd (fst (afterAwait f s1)) = d
  /\ snd (afterAwait f s1) = snd j
  /\ score (fst (fst (afterAwait f s1))) = snd (fst j).
Proof.
  intros d dir j. subst d dir j.
  pose proof (detectStrum_refs f s1) as Hr.
  unfold afterAwait.
  destruct (detectStrum f s1) as [[s2 d] dir]. simpl in Hr. simpl fst. simpl snd.
  destruct Hr as (Hn & _ & Hs2 & Hf2). rewrite Hf2, Hn, Hs2.
  destruct (judgeNotes d dir (fretStatesRef s1) (HIT_ZONE_X (dims_w f))
              (notesRef s1) (score s1)) as [[notes sc] ev].
  simpl. repeat split.
Qed.

(** X9.  The sounds of a frame match its resolutions, whatever handlers
    run while the frame waits for the hands: the frame calls [playStrum]
    once for every note it hits and [playMuted] once for every note it
    misses, and every [playStrum] of the frame is given the fret state that
    [fretStatesRef] holds when the loop over the notes runs, which is the
    one left by the handlers that ran during the wait, and the direction of
    the frame's strum, and occurs on a frame that strums. *)
Theorem X9_sounds_match_resolutions (f : Frame) (during : list Async) (s : Engine) :
  Forall (fun ev => match ev with
                    | playStrum fr dir =>
                        fr = fretStatesRef (duringAwait during (afterSpawn f s))
                        /\ dir = snd (detectStrum f (duringAwait during (afterSpawn f s)))
                        /\ snd (fst (gameLoopAwait f during s)) = true
                    | _ => True
                    end) (snd (gameLoopAwait f during s))
  /\ countEffects isPlayStrum (snd (gameLoopAwait f during s))
     = hitCount (score (fst (fst (gameLoopAwait f during s)))) - hitCount (score s)
  /\ countEffects isPlayMuted (snd (gameLoopAwait f during s))
     = missCountRef (score (fst (fst (gameLoopAwait f during s))))
       - missCountRef (score s).
Proof.
  unfold gameLoopAwait.
  destruct (afterAwait_unfold f (duringAwait during (afterSpawn f s))) as (Hd & Hev & Hsc).
  rewrite Hev, Hsc, Hd.
  destruct (duringAwait_refs during (afterSpawn f s)) as [Hs1 Hn1].
  destruct (afterSpawn_refs f s) as (Hs0 & _).
  rewrite Hs1, Hs0.
  destruct (judgeNotes_effects
              (snd (fst (detectStrum f (duringAwait during (afterSpawn f s)))))
              (snd (detectStrum f (duringAwait during (afterSpawn f s))))
              (fretStatesRef (duringAwait during (afterSpawn f s)))
              (HIT_ZONE_X (dims_w f))
              (notesRef (duringAwait during (afterSpawn f s))) (score s))
    as (Hall & Hs & Hm & _).
  split; [exact Hall |]. split; assumption.
Qed.

(** A message handled while a frame waits decides what that frame plays:
    the frame starts with six unused strings, the message arrives during
    the wait, and the strum that hits the note is played with its frets. *)
Lemma message_during_await_is_played :
  fretStatesRef readyToStrum = [None; None; None; None; None; None]
  /\ snd (gameLoopAwait (handFrame 1400 650)
            [MessageDuring (chord_change (Some "G") (Some [mkFingering 6 3]))]
            readyToStrum)
     = [setScoreDisplay 1000; setComboDisplay 1; setLastRating "PERFECT";
        playStrum [Some 3; None; None; None; None; None] down].
Proof. split; reflexivity. Qed.

(** X10.  The displays follow the counters: replaying the
    [setComboDisplay] and [setScoreDisplay] calls of a frame on displays
    that showed the combo and the score held before the frame leaves them
    showing the combo and the score held after it. *)
Theorem X10_displays_follow_counters (f : Frame) (s : Engine) :
  shownCombo (snd (gameLoop f s)) (comboRef (score s))
  = comboRef (score (stepEngine f s))
  /\ shownScore (snd (gameLoop f s)) (scoreRef (score s))
     = scoreRef (score (stepEngine f s)).
Proof.
  destruct (gameLoop_unfold f s) as (_ & Hev & Hsc & _).
  rewrite Hev, Hsc.
  destruct (judgeNotes_effects
              (snd (fst (detectStrum f (afterSpawn f s))))
              (snd (detectStrum f (afterSpawn f s)))
              (fretStatesRef s) (HIT_ZONE_X (dims_w f))
              (notesRef (afterSpawn f s)) (score s)) as (_ & _ & _ & Hc & Hd).
  split; assumption.
Qed.

(** ** The detector, frame by frame *)

Lemma gameLoop_isStrumming (f : Frame) (s : Engine) :
  isStrummingRef (stepEngine f s)
  = isStrummingRef (fst (fst (detectStrum f (afterSpawn f s)))).
Proof.
  unfold stepEngine, gameLoop.
  destruct (detectStrum f (afterSpawn f s)) as [[s2 d] dir].
  destruct (judgeNotes d dir (fretStatesRef s2) (HIT_ZONE_X (dims_w f))
              (notesRef s2) (score s2)) as [[notes sc] ev].
  reflexivity.
Qed.

(** X11.  The direction of a strum is the side from which the midline was
    crossed: when a frame strums, either the direction is down, the
    previous sample was above the midline, the new one is on or below it
    and the fingertips came down by more than [STRUM_VELOCITY_THRESHOLD], or
    the direction is up, the previous sample was below the midline, the new
    one is on or above it and the fingertips went up by more than the
    threshold. *)
Theorem X11_direction_is_crossing_side (f : Frame) (s : Engine) :
  snd (fst (gameLoop f s)) = true ->
  exists x y lastY,
    extractPosition f = Some (x, y) /\ lastYRef s = Some lastY /\
    ((snd (detectStrum f (afterSpawn f s)) = down
      /\ lastY < STRUM_MID_Y (dims_h f) /\ STRUM_MID_Y (dims_h f) <= y
      /\ STRUM_VELOCITY_THRESHOLD < y - lastY)
     \/ (snd (detectStrum f (afterSpawn f s)) = up
         /\ STRUM_MID_Y (dims_h f) < lastY /\ y <= STRUM_MID_Y (dims_h f)
         /\ STRUM_VELOCITY_THRESHOLD < lastY - y))%Q.
Proof.
  intros Hfire.
  destruct (gameLoop_detector f s) as (Hd & _).
  destruct (afterSpawn_detector f s) as [HsameY _].
  rewrite Hd in Hfire. clear Hd.
  unfold detectStrum in *. rewrite HsameY in *.
  destruct (extractPosition f) as [[x y] |]; [| discriminate].
  destruct (inStrumZone f x y); [| discriminate].
  destruct (lastYRef s) as [lastY |]; [| discriminate].
  destruct (strumFires f (afterSpawn f s) lastY y) eqn:Hf; [| discriminate].
  exists x, y, lastY. split; [reflexivity |]. split; [reflexivity |].
  apply strumFires_spec in Hf. destruct Hf as (Hcross & Hspeed & _).
  simpl snd.
  destruct Hcross as [[H1 H2] | [H1 H2]].
  - left. assert (Hpos : (0 < y - lastY)%Q) by lra.
    apply Qltb_lt in Hpos. rewrite Hpos.
    split; [reflexivity |]. split; [exact H1 |]. split; [exact H2 |].
    pose proof (Qabs_pos (y - lastY) ltac:(lra)) as Habs. lra.
  - right. assert (Hneg : (y - lastY <= 0)%Q) by lra.
    apply Qltb_ge in Hneg. rewrite Hneg.
    split; [reflexivity |]. split; [exact H1 |]. split; [exact H2 |].
    pose proof (Qabs_neg (y - lastY) ltac:(lra)) as Habs. lra.
Qed.

Lemma X11_direction_is_crossing_side_witness :
  snd (fst (gameLoop (handFrame 1400 650) (run (ticks [handFrame 1000 500]) initEngine)))
  = true
  /\ exists x y lastY,
       extractPosition (handFrame 1400 650) = Some (x, y)
       /\ lastYRef (run (ticks [handFrame 1000 500]) initEngine) = Some lastY.
Proof.
  assert (H : snd (fst (gameLoop (handFrame 1400 650)
                          (run (ticks [handFrame 1000 500]) initEngine))) = true)
    by (vm_compute; reflexivity).
  split; [exact H |].
  destruct (X11_direction_is_crossing_side _ _ H) as (x & y & lastY & He & Hl & _).
  exists x, y, lastY. auto.
Defined.

(** A frame that finds no sample in [lastYRef] does not strum. *)
Lemma gameLoop_no_sample (f : Frame) (s : Engine) :
  lastYRef s = None -> snd (fst (gameLoop f s)) = false.
Proof.
  intros Hnone.
  destruct (gameLoop_detector f s) as (Hd & _).
  destruct (afterSpawn_detector f s) as [HsameY _].
  destruct (detectStrum_spec f (afterSpawn f s)) as [Hiff _].
  rewrite Hd. destruct (snd (fst (detectStrum f (afterSpawn f s)))); [| reflexivity].
  destruct Hiff as [Hiff _]. destruct (Hiff eq_refl) as (? & ? & l & _ & _ & Hl & _).
  rewrite HsameY, Hnone in Hl. discriminate.
Qed.

(** X12.  Entering the strum zone never strums: a frame on which the
    selected hand is outside the zone does not strum, clears [lastYRef] and
    [isStrummingRef], leaves the time of the last strum alone, and so keeps
    the next frame, whatever it sees, from strumming too. *)
Theorem X12_entering_the_zone_never_strums (f1 f2 : Frame) (s : Engine) (x y : Q) :
  extractPosition f1 = Some (x, y) -> inStrumZone f1 x y = false ->
  snd (fst (gameLoop f1 s)) = false
  /\ lastYRef (stepEngine f1 s) = None
  /\ isStrummingRef (stepEngine f1 s) = false
  /\ lastStrumTimeRef (stepEngine f1 s) = lastStrumTimeRef s
  /\ snd (fst (gameLoop f2 (stepEngine f1 s))) = false.
Proof.
  intros He Hz.
  destruct (gameLoop_detector f1 s) as (Hd & Hy & Ht).
  pose proof (gameLoop_isStrumming f1 s) as Hi.
  destruct (afterSpawn_detector f1 s) as [_ Hsame].
  destruct (detectStrum_out_of_zone f1 (afterSpawn f1 s) x y He Hz) as [Hno Hnone].
  assert (Hrest : isStrummingRef (fst (fst (detectStrum f1 (afterSpawn f1 s)))) = false
                  /\ lastStrumTimeRef (fst (fst (detectStrum f1 (afterSpawn f1 s))))
                     = lastStrumTimeRef (afterSpawn f1 s)).
  { unfold detectStrum. rewrite He, Hz. simpl. auto. }
  destruct Hrest as [Hi' Ht'].
  rewrite Hd, Hy, Hi, Ht, Hno, Hnone, Hi', Ht', Hsame.
  repeat split; auto.
  apply gameLoop_no_sample. now rewrite Hy.
Qed.

Lemma X12_entering_the_zone_never_strums_witness :
  extractPosition (lowHandFrame 1200)
  = Some (displayHandX (lowHandFrame 1200) (handAt 400 500 700),
          avgTipY (lowHandFrame 1200) (handAt 400 500 700))
  /\ snd (fst (gameLoop (handFrame 1400 650)
                 (stepEngine (lowHandFrame 1200)
                    (run (ticks [handFrame 1000 500]) initEngine)))) = false.
Proof.
  assert (He : extractPosition (lowHandFrame 1200)
               = Some (displayHandX (lowHandFrame 1200) (handAt 400 500 700),
                       avgTipY (lowHandFrame 1200) (handAt 400 500 700)))
    by reflexivity.
  split; [exact He |].
  exact (proj2 (proj2 (proj2 (proj2
    (X12_entering_the_zone_never_strums (lowHandFrame 1200) (handFrame 1400 650)
       (run (ticks [handFrame 1000 500]) initEngine) _ _ He
       ltac:(vm_compute; reflexivity)))))).
Defined.

(** X13.  The extractor yields no position exactly when no detected hand
    passes the wrist-height gate, in particular when no hand is detected at
    all; such a frame does not strum. *)
Theorem X13_no_position_iff_no_hand_passes (f : Frame) (s : Engine) :
  (extractPosition f = None
   <-> Forall (fun p => passesGate f p = false) (predictions f))
  /\ (predictions f = [] -> extractPosition f = None)
  /\ (extractPosition f = None -> snd (fst (gameLoop f s)) = false).
Proof.
  assert (Hiff : extractPosition f = None
                 <-> Forall (fun p => passesGate f p = false) (predictions f)).
  { unfold extractPosition, selectedHand, validHands.
    induction (predictions f) as [| p l IH]; simpl.
    - split; [constructor | reflexivity].
    - destruct (passesGate f p) eqn:Hp; simpl.
      + split; [discriminate |]. intros H. inversion H; subst. congruence.
      + destruct (reduceHands (List.filter (passesGate f) l)) eqn:Hr.
        * split; [discriminate |]. intros H. inversion H as [| ? ? _ Hl]; subst.
          apply IH in Hl. discriminate.
        * split; [| reflexivity]. intros _. constructor; [exact Hp |].
          now apply IH. }
  split; [exact Hiff |]. split.
  - intros Hnil. apply Hiff. rewrite Hnil. constructor.
  - intros Hnone. destruct (gameLoop_detector f s) as (Hd & _).
    rewrite Hd, (detectStrum_no_hand f _ Hnone). reflexivity.
Qed.

(** ** Messages and the game *)

Lemma judgeNote_frets_irrelevant (didStrum : bool) (strumDir : StrumDir)
    (fr1 fr2 : list (option Z)) (HZ : Z) (n : Note) (sc : Score) :
  fst (judgeNote didStrum strumDir fr1 HZ n sc)
  = fst (judgeNote didStrum strumDir fr2 HZ n sc).
Proof.
  unfold judgeNote, strumNote, missNote.
  repeat (match goal with |- context [if ?c then _ else _] => destruct c end;
          simpl); reflexivity.
Qed.

Lemma judgeNotes_frets_irrelevant (didStrum : bool) (strumDir : StrumDir)
    (fr1 fr2 : list (option Z)) (HZ : Z) (notes : list Note) (sc : Score) :
  fst (judgeNotes didStrum strumDir fr1 HZ notes sc)
  = fst (judgeNotes didStrum strumDir fr2 HZ notes sc).
Proof.
  induction notes as [| n rest IH]; simpl; [reflexivity |].
  destruct (judgeNotes didStrum strumDir fr1 HZ rest sc) as [[r1 s1] e1].
  destruct (judgeNotes didStrum strumDir fr2 HZ rest sc) as [[r2 s2] e2].
  simpl in IH. injection IH as <- <-.
  pose proof (judgeNote_frets_irrelevant didStrum strumDir fr1 fr2 HZ n s1) as Hn.
  destruct (judgeNote didStrum strumDir fr1 HZ n s1) as [[n1 sc1] ev1].
  destruct (judgeNote didStrum strumDir fr2 HZ n s1) as [[n2 sc2] ev2].
  simpl in Hn. injection Hn as <- <-. reflexivity.
Qed.

Lemma engine_same_game (s1 s2 : Engine) :
  gameView s1 = gameView s2 ->
  s1 = setFrets s2 (fretStatesRef s1) (currentChordRef s1).
Proof.
  destruct s1, s2. unfold gameView, setFrets. simpl. intros H.
  injection H as -> -> -> -> -> -> -> -> ->. reflexivity.
Qed.

Lemma afterSpawn_setFrets (f : Frame) (s : Engine) (fr : list (option Z)) (c : string) :
  afterSpawn f (setFrets s fr c) = setFrets (afterSpawn f s) fr c.
Proof.
  destruct s as [sc notes nid lst started ly strumming lt frets chord gs].
  unfold afterSpawn, spawnNote, setFrets. simpl.
  destruct started; [| reflexivity].
  destruct (1100 <? spawnNow f - lst); reflexivity.
Qed.

Lemma detectStrum_setFrets (f : Frame) (s : Engine) (fr : list (option Z)) (c : string) :
  detectStrum f (setFrets s fr c)
  = (setFrets (fst (fst (detectStrum f s))) fr c,
     snd (fst (detectStrum f s)), snd (detectStrum f s)).
Proof.
  destruct s as [sc notes nid lst started ly strumming lt frets chord gs].
  unfold detectStrum, strumFires, setFrets, setDetector. simpl.
  repeat (match goal with
          | |- context [match ?c with _ => _ end] => destruct c
          end; simpl); reflexivity.
Qed.

(** A frame sees the fret state and the chord name only to pass the frets
    on to [playStrum]. *)
Lemma gameLoop_setFrets (f : Frame) (s : Engine) (fr : list (option Z)) (c : string) :
  stepEngine f (setFrets s fr c) = setFrets (stepEngine f s) fr c
  /\ snd (fst (gameLoop f (setFrets s fr c))) = snd (fst (gameLoop f s)).
Proof.
  unfold stepEngine, gameLoop.
  rewrite afterSpawn_setFrets, detectStrum_setFrets.
  destruct (detectStrum f (afterSpawn f s)) as [[s2 d] dir]. simpl fst. simpl snd.
  pose proof (judgeNotes_frets_irrelevant d dir fr
                (fretStatesRef s2) (HIT_ZONE_X (dims_w f)) (notesRef s2) (score s2)) as Hj.
  change (fretStatesRef (setFrets s2 fr c)) with fr.
  change (notesRef (setFrets s2 fr c)) with (notesRef s2).
  change (score (setFrets s2 fr c)) with (score s2).
  destruct (judgeNotes d dir fr (HIT_ZONE_X (dims_w f))
              (notesRef s2) (score s2)) as [[n1 sc1] ev1].
  destruct (judgeNotes d dir (fretStatesRef s2) (HIT_ZONE_X (dims_w f))
              (notesRef s2) (score s2)) as [[n2 sc2] ev2].
  simpl in Hj. injection Hj as <- <-. split; reflexivity.
Qed.

Lemma handleEvent_same_game (e : Event) (s1 s2 : Engine) :
  gameView s1 = gameView s2 ->
  (isMessage e = true -> gameView (handleEvent e s1) = gameView s2)
  /\ (isMessage e = false ->
      gameView (handleEvent e s1) = gameView (handleEvent e s2)
      /\ strumOf e s1 = strumOf e s2)
  /\ (isMessage e = true -> strumOf e s1 = []).
Proof.
  intros Hv. split; [| split].
  - destruct e as [f | p | t]; try discriminate. intros _. rewrite <- Hv.
    destruct p; reflexivity.
  - intros Hm. rewrite (engine_same_game s1 s2 Hv).
    destruct e as [f | p | t]; try discriminate.
    + simpl. destruct (gameLoop_setFrets f s2 (fretStatesRef s1) (currentChordRef s1))
        as [Hs Hd].
      rewrite Hs, Hd. split; reflexivity.
    + split; reflexivity.
  - destruct e as [f | p | t]; try discriminate. reflexivity.
Qed.

(** X14.  Messages take no part in the game: a session and the same
    session with every message removed end with the same score, notes, id
    counter, spawn clock, start flag and time, and detector refs, and emit
    their strums at the same times.  All a message can change is the fret
    state and the chord name. *)
Theorem X14_messages_do_not_touch_the_game (es : list Event) (s : Engine) :
  gameView (run es s) = gameView (run (withoutMessages es) s)
  /\ strumTimes es s = strumTimes (withoutMessages es) s.
Proof.
  assert (H : forall s1 s2, gameView s1 = gameView s2 ->
              gameView (run es s1) = gameView (run (withoutMessages es) s2)
              /\ strumTimes es s1 = strumTimes (withoutMessages es) s2).
  { induction es as [| e es IH]; intros s1 s2 Hv; simpl; [auto |].
    destruct (handleEvent_same_game e s1 s2 Hv) as (Hmsg & Hoth & Hno).
    unfold withoutMessages in *. simpl.
    destruct (isMessage e) eqn:Hm; simpl.
    - rewrite (Hno eq_refl). simpl. apply IH. now apply Hmsg.
    - destruct (Hoth eq_refl) as [Hv' Hst]. rewrite Hst.
      destruct (IH _ _ Hv') as [I1 I2]. rewrite I1, I2. auto. }
  now apply H.
Qed.

(** ** A frame that waits, as a session *)

Lemma afterSpawn_onmessage (f : Frame) (p : Payload) (s : Engine) :
  afterSpawn f (onmessage p s) = onmessage p (afterSpawn f s).
Proof.
  destruct p; try reflexivity; simpl; rewrite afterSpawn_setFrets;
    destruct (afterSpawn_refs f s) as (_ & _ & _ & _ & Hc & _); now rewrite ?Hc.
Qed.

Lemma afterSpawn_messages (f : Frame) (during : list Async) (s : Engine) :
  afterSpawn f (run (messagesOf during) s) = run (messagesOf during) (afterSpawn f s).
Proof.
  revert s. induction during as [| [p | t] l IH]; intros s; simpl; auto.
  now rewrite IH, afterSpawn_onmessage.
Qed.

Lemma onmessage_handleStart (p : Payload) (t : Z) (s : Engine) :
  onmessage p (handleStart t s) = handleStart t (onmessage p s).
Proof. destruct p; reflexivity. Qed.

Lemma messages_handleStart (during : list Async) (t : Z) (s : Engine) :
  run (messagesOf during) (handleStart t s) = handleStart t (run (messagesOf during) s).
Proof.
  revert s. induction during as [| [p | t'] l IH]; intros s; simpl; auto.
  now rewrite <- IH, onmessage_handleStart.
Qed.

Lemma run_append (es1 es2 : list Event) (s : Engine) :
  run (es1 ++ es2) s = run es2 (run es1 s).
Proof. revert s. induction es1 as [| e es1 IH]; intros s; simpl; auto. Qed.

(** The handlers run during a wait, the messages first. *)
Lemma duringAwait_sorted (during : list Async) (s : Engine) :
  duringAwait during s = run (startsOf during) (run (messagesOf during) s).
Proof.
  revert s. induction during as [| [p | t] l IH]; intros s; [reflexivity | |];
    unfold duringAwait in *; simpl; rewrite IH; [reflexivity |].
  now rewrite messages_handleStart.
Qed.

Lemma detectStrum_handleStart (f : Frame) (t : Z) (s : Engine) :
  detectStrum f (handleStart t s)
  = (handleStart t (fst (fst (detectStrum f s))),
     snd (fst (detectStrum f s)), snd (detectStrum f s)).
Proof.
  destruct s as [sc notes nid lst started ly strumming lt frets chord gs].
  unfold detectStrum, strumFires, handleStart, setDetector. simpl.
  repeat (match goal with
          | |- context [match ?c with _ => _ end] => destruct c
          end; simpl); reflexivity.
Qed.

Lemma afterAwait_handleStart (f : Frame) (t : Z) (s : Engine) :
  afterAwait f (handleStart t s)
  = (handleStart t (fst (fst (afterAwait f s))),
     snd (fst (afterAwait f s)), snd (afterAwait f s)).
Proof.
  unfold afterAwait. rewrite detectStrum_handleStart.
  destruct (detectStrum f s) as [[s2 d] dir]. simpl fst. simpl snd.
  change (fretStatesRef (handleStart t s2)) with (fretStatesRef s2).
  change (notesRef (handleStart t s2)) with (notesRef s2).
  change (score (handleStart t s2)) with (score s2).
  now destruct (judgeNotes d dir (fretStatesRef s2) (HIT_ZONE_X (dims_w f))
                  (notesRef s2) (score s2)) as [[notes sc] ev].
Qed.

Lemma afterAwait_starts (f : Frame) (during : list Async) (s : Engine) :
  afterAwait f (run (startsOf during) s)
  = (run (startsOf during) (fst (fst (afterAwait f s))),
     snd (fst (afterAwait f s)), snd (afterAwait f s)).
Proof.
  revert s. induction during as [| [p | t] l IH]; intros s; simpl; auto.
  - now destruct (afterAwait f s) as [[s' d] ev].
  - rewrite IH, afterAwait_handleStart. reflexivity.
Qed.

(** A frame during whose wait handlers run is a session of three parts:
    the messages, the frame without interruption, the presses of the start
    button.  The frame strums and makes its calls as the uninterrupted
    frame does after the messages. *)
Lemma gameLoopAwait_session (f : Frame) (during : list Async) (s : Engine) :
  gameLoopAwait f during s
  = (run (messagesOf during ++ [Tick f] ++ startsOf during) s,
     snd (fst (gameLoop f (run (messagesOf during) s))),
     snd (gameLoop f (run (messagesOf during) s))).
Proof.
  unfold gameLoopAwait.
  rewrite duringAwait_sorted, afterAwait_starts, <- afterSpawn_messages.
  change (afterAwait f (afterSpawn f (run (messagesOf during) s)))
    with (gameLoop f (run (messagesOf during) s)).
  rewrite run_append. reflexivity.
Qed.

(** ** The life of a note that is never hit *)

Lemma Forall2_In_l {A B : Type} (R : A -> B -> Prop) (l : list A) (l' : list B) (x : A) :
  Forall2 R l l' -> In x l -> exists y, In y l' /\ R x y.
Proof.
  induction 1 as [| x' y l l' HR HF IH]; simpl; [tauto |].
  intros [<- | Hin].
  - exists y. auto.
  - destruct (IH Hin) as (y' & Hy' & HR'). exists y'. auto.
Qed.

(** On a frame that does not strum, on a canvas of width [W], a pending
    note moves on by [NOTE_SPEED] and is marked missed if that carries it
    past the window, and a missed note stays as it is. *)
Lemma stepEngine_forward (W : Z) (f : Frame) (s : Engine) (n : Note) :
  dims_w f = W -> onTrack W s -> snd (fst (gameLoop f s)) = false ->
  In n (notesRef s) ->
  In (if isPending n
      then mkNote (note_id n) (note_x n + NOTE_SPEED) (chordName n) false
                  (W - 130 <? note_x n + NOTE_SPEED)
      else n)
     (notesRef (stepEngine f s)).
Proof.
  intros Hw Hon Hno Hin.
  destruct (gameLoop_unfold f s) as (Hd & _ & _ & Hnotes & _).
  rewrite Hno in Hd. rewrite Hnotes, <- Hd, Hw. clear Hnotes Hd.
  assert (Hin1 : In n (notesRef (afterSpawn f s))).
  { destruct (afterSpawn_cases f s) as [[Hs _] | (_ & _ & Hn & _)].
    - now rewrite Hs.
    - rewrite Hn. apply in_or_app. now left. }
  unfold onTrack in Hon. rewrite List.Forall_forall in Hon.
  destruct (Hon n Hin) as (Hh & Hx & Hpx).
  set (dir := snd (detectStrum f (afterSpawn f s))).
  destruct (Forall2_In_l _ _ _ n
              (judgeNotes_pointwise false dir (fretStatesRef s) (HIT_ZONE_X W)
                 (notesRef (afterSpawn f s)) (score s)) Hin1)
    as (n' & Hn' & sc1 & ->).
  apply List.filter_In.
  destruct (isPending n) eqn:Hp.
  - specialize (Hpx eq_refl).
    destruct (judgeNote_pending false dir (fretStatesRef s) (HIT_ZONE_X W) n sc1 Hp)
      as [(Hf & _) | [(_ & Hb & Hn & _) | (_ & Hb & Hn & _)]]; [discriminate | |].
    + rewrite Hn in Hn'. unfold HIT_ZONE_X, HIT_WINDOW in Hb.
      replace (W - 130 <? note_x n + NOTE_SPEED) with true
        by (symmetry; apply Z.ltb_lt; lia).
      split; [exact Hn' |]. unfold keepNote, NOTE_SPEED. simpl.
      rewrite andb_true_r. apply Z.ltb_lt. lia.
    + apply (f_equal fst) in Hn. simpl in Hn. rewrite Hn in Hn'.
      unfold HIT_ZONE_X, HIT_WINDOW in Hb.
      replace (W - 130 <? note_x n + NOTE_SPEED) with false
        by (symmetry; apply Z.ltb_ge; lia).
      split; [exact Hn' |]. unfold keepNote, NOTE_SPEED. simpl.
      rewrite andb_true_r. apply Z.ltb_lt. lia.
  - rewrite judgeNote_not_pending in Hn' by exact Hp. simpl in Hn'.
    split; [exact Hn' |]. unfold keepNote. rewrite Hh. simpl.
    rewrite andb_true_r. apply Z.ltb_lt. lia.
Qed.

(** X15.  A note that is never hit is missed, and when: on a canvas of
    constant width [W], over a session that emits no strum, a pending note
    at [x], not yet past the window, is after [k] frames still pending at
    [x + 16 k] as long as that is not past [W - 130] (the hit line plus the
    window), and from then on it is in the list, flagged missed, at the
    first position [x + 16 j] past [W - 130]. *)
Theorem X15_unhit_note_is_missed (W : Z) (es : list Event) (s : Engine) (n : Note) :
  0 <= W -> fixedWidth W es -> onTrack W s -> strumTimes es s = [] ->
  In n (notesRef s) -> isPending n = true -> note_x n <= W - 130 ->
  In (if note_x n + 16 * Z.of_nat (countTicks es) <=? W - 130
      then mkNote (note_id n) (note_x n + 16 * Z.of_nat (countTicks es))
                  (chordName n) false false
      else mkNote (note_id n) (note_x n + 16 * ((W - 130 - note_x n) / 16 + 1))
                  (chordName n) false true)
     (notesRef (run es s)).
Proof.
  intros HW Hfix Hon Hno Hin Hp Hx.
  assert (Hgen : forall s m,
            onTrack W s -> strumTimes es s = [] -> In m (notesRef s) ->
            hit m = false ->
            (missed m = true -> In m (notesRef (run es s)))
            /\ (missed m = false -> note_x m <= W - 130 ->
                In (if note_x m + 16 * Z.of_nat (countTicks es) <=? W - 130
                    then mkNote (note_id m) (note_x m + 16 * Z.of_nat (countTicks es))
                                (chordName m) false false
                    else mkNote (note_id m)
                                (note_x m + 16 * ((W - 130 - note_x m) / 16 + 1))
                                (chordName m) false true)
                   (notesRef (run es s)))).
  { clear s n Hon Hno Hin Hp Hx.
    induction Hfix as [| e es He Hes IH]; intros s m Hon Hno Hin Hh.
    - split; [auto |]. intros Hm Hx.
      change (Z.of_nat (countTicks [])) with 0. rewrite Z.mul_0_r, Z.add_0_r.
      destruct (Z.leb_spec (note_x m) (W - 130)) as [_ | Hgt]; [| lia].
      destruct m as [i x c h ms]. simpl in *. subst. exact Hin.
    - simpl in Hno. apply app_eq_nil in Hno. destruct Hno as [Hno1 Hno2].
      destruct (handleEvent_ledger W e s HW He Hon) as (Hon1 & _).
      destruct e as [f | p | t].
      2:{ destruct (handleEvent_other (Message p) s ltac:(discriminate)) as (Hn & _).
          apply (IH (handleEvent (Message p) s) m); auto; try now rewrite Hn. }
      2:{ destruct (handleEvent_other (Start t) s ltac:(discriminate)) as (Hn & _).
          apply (IH (handleEvent (Start t) s) m); auto; try now rewrite Hn. }
      simpl in Hno1.
      assert (Hd : snd (fst (gameLoop f s)) = false)
        by (destruct (snd (fst (gameLoop f s))); [discriminate | reflexivity]).
      pose proof (stepEngine_forward W f s m He Hon Hd Hin) as Hfwd.
      simpl handleEvent in *. simpl run. simpl countTicks.
      unfold isPending in Hfwd. rewrite Hh in Hfwd. simpl in Hfwd.
      split.
      + intros Hm. rewrite Hm in Hfwd. simpl in Hfwd.
        now apply (IH (stepEngine f s) m Hon1 Hno2 Hfwd Hh).
      + intros Hm Hx. rewrite Hm in Hfwd. simpl in Hfwd. unfold NOTE_SPEED in Hfwd.
        rewrite Nat2Z.inj_succ.
        destruct (Z.ltb_spec (W - 130) (note_x m + 16)) as [Hb | Hb].
        * destruct (IH (stepEngine f s) _ Hon1 Hno2 Hfwd eq_refl) as [Hstay _].
          specialize (Hstay eq_refl).
          replace (note_x m + 16 * Z.succ (Z.of_nat (countTicks es)) <=? W - 130)
            with false by (symmetry; apply Z.leb_gt; lia).
          replace ((W - 130 - note_x m) / 16) with 0
            by (symmetry; apply Z.div_small; lia).
          exact Hstay.
        * destruct (IH (stepEngine f s) _ Hon1 Hno2 Hfwd eq_refl) as [_ Hgo].
          specialize (Hgo eq_refl ltac:(simpl; lia)). simpl in Hgo.
          replace (note_x m + 16 * Z.succ (Z.of_nat (countTicks es)))
            with (note_x m + 16 + 16 * Z.of_nat (countTicks es)) by lia.
          replace ((W - 130 - note_x m) / 16)
            with ((W - 130 - (note_x m + 16)) / 16 + 1).
          2:{ replace (W - 130 - note_x m)
                with (W - 130 - (note_x m + 16) + 1 * 16) by lia.
              now rewrite Z.div_add by lia. }
          replace (note_x m + 16 * ((W - 130 - (note_x m + 16)) / 16 + 1 + 1))
            with (note_x m + 16 + 16 * ((W - 130 - (note_x m + 16)) / 16 + 1)) by lia.
          exact Hgo. }
  assert (Hflags : hit n = false /\ missed n = false).
  { unfold isPending in Hp. apply andb_true_iff in Hp.
    destruct Hp as [Hp1 Hp2]. apply negb_true_iff in Hp1, Hp2. now split. }
  destruct Hflags as [Hh Hm].
  destruct (Hgen s n Hon Hno Hin Hh) as [_ Hgo]. now apply Hgo.
Qed.

Lemma X15_unhit_note_is_missed_witness :
  In (mkNote 0 (-84) "C" false false) (notesRef oneNoteEngine)
  /\ In missedNote (notesRef (run (ticks (quietSession 79)) oneNoteEngine)).
Proof.
  assert (Hin : In (mkNote 0 (-84) "C" false false) (notesRef oneNoteEngine))
    by (vm_compute; left; reflexivity).
  assert (Hfix0 : fixedWidth 1280 [Start 0; Tick (quietFrame 1200)])
    by (repeat constructor).
  assert (Hon : onTrack 1280 oneNoteEngine)
    by (apply (run_ledger 1280 _ initEngine ltac:(lia) Hfix0 (onTrack_init 1280))).
  assert (Hfix : fixedWidth 1280 (ticks (quietSession 79)))
    by (unfold fixedWidth; vm_compute; repeat constructor).
  assert (Hno : strumTimes (ticks (quietSession 79)) oneNoteEngine = [])
    by (vm_compute; reflexivity).
  split; [exact Hin |].
  exact (X15_unhit_note_is_missed 1280 _ oneNoteEngine _ ltac:(lia) Hfix Hon Hno Hin
           eq_refl ltac:(vm_compute; discriminate)).
Defined.

(** ** The phone and the socket *)

(** X16.  The frets chosen on the phone do not reach the player.  When the
    socket is open, [sendChordChange] records the frets on the phone and
    sends them in a field named [frets]; the handler of the player reads
    [fingering], which the message does not have, so on arrival, bare or
    wrapped in a [data] envelope, the fret state becomes six unused slots
    whatever the frets were, and only the chord name is taken over (C when
    the name is empty). *)
Theorem X16_phone_frets_do_not_arrive (chordName : string) (frets : list (option Z))
    (t : Z) (m : Mobile) (s : Engine) :
  socketOpen m = true ->
  exists w,
    sendChordChange chordName frets t m
    = (mkMobile (selectedChord m) true frets, Some w)
    /\ w_frets w = Some frets
    /\ fretStatesRef (receive (bare w) s) = [None; None; None; None; None; None]
    /\ fretStatesRef (receive (wrapped (Some w)) s) = [None; None; None; None; None; None]
    /\ currentChordRef (receive (bare w) s)
       = (if String.eqb chordName "" then "C" else chordName)
    /\ gameView (receive (bare w) s) = gameView s.
Proof.
  intros Hopen. unfold sendChordChange. rewrite Hopen.
  eexists. split; [reflexivity |]. repeat split.
Qed.

Lemma X16_phone_frets_do_not_arrive_witness :
  socketOpen (mkMobile "Em" true []) = true
  /\ exists w,
       pressChord ("Em", [Some 0; Some 2; Some 2; Some 0; None; None]) 7
                  (mkMobile "C" true [])
       = (mkMobile "Em" true [Some 0; Some 2; Some 2; Some 0; None; None], Some w)
       /\ fretStatesRef (receive (bare w) initEngine)
          = [None; None; None; None; None; None].
Proof.
  split; [reflexivity |].
  destruct (X16_phone_frets_do_not_arrive "Em" [Some 0; Some 2; Some 2; Some 0; None; None]
              7 (mkMobile "Em" true []) initEngine eq_refl)
    as (w & Hsend & _ & Hb & _).
  exists w. split; [exact Hsend | exact Hb].
Defined.

(** X17.  What the handler cannot read it drops: text that does not parse,
    a [data] envelope without a payload, a message of a type it does not
    know, and a [FRET_UPDATE] without its array all leave every ref as it
    was; and no packet whatsoever touches the score, the notes or the
    detector. *)
Theorem X17_unreadable_packets_are_dropped (d : Packet) (w : Wire) (s : Engine) :
  gameView (receive d s) = gameView s
  /\ receive malformed s = s
  /\ receive (wrapped None) s = s
  /\ (readPayload w = other_message ->
      receive (bare w) s = s /\ receive (wrapped (Some w)) s = s)
  /\ (w_type w = "FRET_UPDATE" -> w_payload w = None -> readPayload w = other_message)
  /\ (w_type w <> "chord_change" -> w_type w <> "FRET_UPDATE" ->
      receive (bare w) s = s /\ receive (wrapped (Some w)) s = s).
Proof.
  assert (Hview : forall p, gameView (onmessage p s) = gameView s)
    by (intros p; destruct p; reflexivity).
  split; [| split; [reflexivity | split; [reflexivity | split; [| split]]]].
  - destruct d as [| [w' |] | w']; simpl; auto.
    destruct (String.eqb (w_type w') "data"); auto.
  - intros Hr. simpl. rewrite Hr. simpl.
    destruct (String.eqb (w_type w) "data"); auto.
  - intros Ht Hp. unfold readPayload. rewrite Ht, Hp. reflexivity.
  - intros H1 H2.
    assert (Hs : onmessage (readPayload w) s = s).
    { unfold readPayload.
      apply String.eqb_neq in H1, H2. rewrite H1, H2.
      destruct (String.eqb (w_type w) "strings_pressed"); [reflexivity |].
      destruct (String.eqb (w_type w) "strings_released"); reflexivity. }
    simpl. rewrite Hs. destruct (String.eqb (w_type w) "data"); auto.
Qed.

(** ** The application shell *)

(** X18.  The controller role of the phone cannot be entered: starting in
    the lobby, whatever handlers of the lobby and the player run and in
    whatever order, the role is the lobby or the player and never the
    mobile controller; [handleMobileSession] in particular leaves the
    application as it is, whether it raises its alert or not. *)
Theorem X18_mobile_role_is_unreachable (toUpperCase : string -> string)
    (clicks : list Click) (room : string) (a : App) :
  role (fold_left (click toUpperCase) clicks (mkApp LOBBY room)) <> MOBILE_CONTROLLER
  /\ fst (handleMobileSession toUpperCase a) = a
  /\ (snd (handleMobileSession toUpperCase a) = []
      \/ snd (handleMobileSession toUpperCase a) = ["Invalid Room ID"])
  /\ handlePCSession toUpperCase a
     = mkApp PC_PLAYER
         (toUpperCase (if String.eqb (roomId a) "" then "TEST" else roomId a)).
Proof.
  split; [| split; [| split]].
  - assert (H : forall b, role b <> MOBILE_CONTROLLER ->
                  role (fold_left (click toUpperCase) clicks b) <> MOBILE_CONTROLLER).
    { induction clicks as [| c cs IH]; intros b Hb; simpl; [exact Hb |].
      apply IH. unfold click, handlePCSession, handleMobileSession.
      destruct (role b) eqn:Hr, c; simpl; try (rewrite Hr; discriminate);
        try discriminate; try congruence.
      destruct (String.length (displayRoomId toUpperCase (roomId b)) =? 4)%nat;
        simpl; rewrite Hr; discriminate. }
    apply H. discriminate.
  - unfold handleMobileSession.
    destruct (String.length (displayRoomId toUpperCase (roomId a)) =? 4)%nat;
      reflexivity.
  - unfold handleMobileSession.
    destruct (String.length (displayRoomId toUpperCase (roomId a)) =? 4)%nat;
      simpl; auto.
  - reflexivity.
Qed.

(** ** The ids of the notes *)

Lemma StronglySorted_map_filter {A : Type} (g : A -> Z) (p : A -> bool) (l : list A) :
  StronglySorted Z.lt (map g l) -> StronglySorted Z.lt (map g (List.filter p l)).
Proof.
  induction l as [| a l IH]; simpl; [auto |].
  intros Hs. inversion Hs as [| ? ? Hs' Hall]; subst.
  destruct (p a); simpl; [| now apply IH].
  constructor; [now apply IH |].
  apply List.Forall_forall. intros y Hy. apply in_map_iff in Hy.
  destruct Hy as (b & <- & Hb). apply List.filter_In in Hb.
  rewrite List.Forall_forall in Hall. apply Hall. apply in_map. tauto.
Qed.

Lemma StronglySorted_snoc (l : list Z) (x : Z) :
  StronglySorted Z.lt l -> Forall (fun y => y < x) l -> StronglySorted Z.lt (l ++ [x]).
Proof.
  induction 1 as [| a l Hs IH Hall]; intros Hlt; simpl.
  - repeat constructor.
  - inversion Hlt as [| ? ? Hax Hlt']; subst.
    constructor; [now apply IH |].
    apply Forall_app. split; [exact Hall | repeat constructor; exact Hax].
Qed.

(** X19.  From the initial refs, at any point of any session, the notes in
    the list carry pairwise distinct ids, in increasing order along the list
    (the oldest note first, so that the judge, which walks the list
    backwards, takes the newest note first), all of them at least zero and
    below the next id to hand out. *)
Theorem X19_ids_increase_along_the_list (es : list Event) :
  StronglySorted Z.lt (map note_id (notesRef (run es initEngine)))
  /\ Forall (fun n => 0 <= note_id n < nextNoteId (run es initEngine))
            (notesRef (run es initEngine))
  /\ wfEngine (run es initEngine).
Proof.
  assert (H : forall s,
            (StronglySorted Z.lt (map note_id (notesRef s))
             /\ Forall (fun n => 0 <= note_id n < nextNoteId s) (notesRef s)
             /\ 0 <= nextNoteId s) ->
            StronglySorted Z.lt (map note_id (notesRef (run es s)))
            /\ Forall (fun n => 0 <= note_id n < nextNoteId (run es s))
                      (notesRef (run es s))
            /\ 0 <= nextNoteId (run es s)).
  { induction es as [| e es IH]; intros s Hs; simpl; [exact Hs |].
    apply IH. destruct Hs as (Hsorted & Hall & Hnn).
    destruct e as [f | p | t].
    2:{ destruct (handleEvent_other (Message p) s ltac:(discriminate)) as (Hn & Hid & _).
        rewrite Hn, Hid. auto. }
    2:{ destruct (handleEvent_other (Start t) s ltac:(discriminate)) as (Hn & Hid & _).
        rewrite Hn, Hid. auto. }
    simpl handleEvent.
    destruct (gameLoop_unfold f s) as (_ & _ & _ & Hnotes & Hid & _).
    assert (Hs1 : StronglySorted Z.lt (map note_id (notesRef (afterSpawn f s)))
                  /\ Forall (fun n => 0 <= note_id n < nextNoteId (afterSpawn f s))
                            (notesRef (afterSpawn f s))
                  /\ 0 <= nextNoteId (afterSpawn f s)).
    { destruct (afterSpawn_cases f s) as [[Heq _] | (_ & _ & Hn & Hi & _)].
      - rewrite Heq. auto.
      - rewrite Hn, Hi, map_app. simpl. split; [| split; [| lia]].
        + apply StronglySorted_snoc; [exact Hsorted |].
          apply List.Forall_forall. intros y Hy. apply in_map_iff in Hy.
          destruct Hy as (b & <- & Hb).
          rewrite List.Forall_forall in Hall. specialize (Hall b Hb). lia.
        + apply Forall_app. split.
          * eapply Forall_impl; [exact Hall |]. simpl. intros; lia.
          * repeat constructor; simpl; lia. }
    destruct Hs1 as (Hsorted1 & Hall1 & Hnn1).
    rewrite Hnotes, Hid. split; [| split; [| exact Hnn1]].
    + apply StronglySorted_map_filter. now rewrite judgeNotes_ids.
    + apply List.Forall_forall. intros n' Hn'. apply List.filter_In in Hn'.
      destruct Hn' as [Hn' _].
      destruct (judgeNotes_In _ _ _ _ _ _ _ Hn') as (n & Hn & Hst).
      rewrite (noteStep_id _ _ Hst).
      rewrite List.Forall_forall in Hall1. now apply Hall1. }
  destruct (H initEngine) as (H1 & H2 & _).
  { simpl. repeat split; try constructor; lia. }
  split; [exact H1 |]. split; [exact H2 |].
  apply run_wf, wfEngine_init.
Qed.
